(** * awards_watch.py: a shallow embedding and its specification

    The program polls RSS feeds and HTML listing pages, scores each item with
    a keyword heuristic, drops the items already seen, ranks the rest and
    writes a digest page.

    Conventions of the embedding.
    - A Python [str] is a Rocq [string]; a character is a code point in
      U+0000..U+00FF (so [encode("utf-8")] writes one or two bytes).
    - A Python [float] is a primitive binary64 [float]; its comparisons are
      those of IEEE 754, NaN included.
    - The seen set is a [gset string]; dicts with fixed keys are records, and
      a key that may be absent from a JSON object is an [option] field.
    - An exception is a value: [Raised detail] for a call that may be caught,
      [Aborted] for a run that nothing caught.
    - The network, [feedparser], [BeautifulSoup] and [urllib] are not part of
      the program: what they return is an input of the model, the [world].
    - The page that [build_html] writes is not modelled; the ranked list it
      receives is.

    The file has two parts: the definitions, in the order of the source, and
    the proofs. *)

From Stdlib Require Import ZArith List String Ascii Bool Lia Floats.
From Stdlib Require Import Sorted Permutation.
From stdpp Require Import gmap strings sorting.
Import ListNotations.

Local Open Scope Z_scope.
Set Warnings "-inexact-float,-clear-no-such-hyp".

(** ** Strings: the [str] methods the program calls *)

Module Py.

Definition code (c : ascii) : Z := Z.of_N (N_of_ascii c).
Definition chr (z : Z) : ascii := ascii_of_N (Z.to_N z).

(** [str.isspace] on one character, for code points below 256. *)
Definition isspace (c : ascii) : bool :=
  let n := code c in
  ((9 <=? n) && (n <=? 13)) || ((28 <=? n) && (n <=? 32))
  || (n =? 133) || (n =? 160).

Fixpoint lstrip (s : string) : string :=
  match s with
  | String c s' => if isspace c then lstrip s' else s
  | EmptyString => EmptyString
  end.

(** Dropping the trailing white space: a character is kept when it is not
    white space or when something is kept after it. *)
Fixpoint rstrip (s : string) : string :=
  match s with
  | EmptyString => EmptyString
  | String c s' =>
      match rstrip s' with
      | EmptyString => if isspace c then EmptyString else String c EmptyString
      | r => String c r
      end
  end.

(** [s.strip()] *)
Definition strip (s : string) : string := rstrip (lstrip s).

(** [str.lower] on one character, for code points below 256: A-Z, and
    U+00C0..U+00DE without the multiplication sign U+00D7. *)
Definition lower_char (c : ascii) : ascii :=
  let n := code c in
  if ((65 <=? n) && (n <=? 90))
     || ((192 <=? n) && (n <=? 222) && negb (n =? 215))
  then chr (n + 32) else c.

Fixpoint lower (s : string) : string :=
  match s with
  | EmptyString => EmptyString
  | String c s' => String (lower_char c) (lower s')
  end.

(** [s.startswith(p)] *)
Fixpoint startswith (p s : string) : bool :=
  match p, s with
  | EmptyString, _ => true
  | String a p', String b s' => Ascii.eqb a b && startswith p' s'
  | String _ _, EmptyString => false
  end.

(** [p in s]: [p] occurs in [s] as a substring. *)
Fixpoint contains (p s : string) : bool :=
  startswith p s ||
  match s with
  | EmptyString => false
  | String _ s' => contains p s'
  end.

(** [s.split()]: the maximal runs of characters that are not white space.
    [cur] is the run being read, in reverse. *)
Fixpoint rev_string (acc s : string) : string :=
  match s with
  | EmptyString => acc
  | String c s' => rev_string (String c acc) s'
  end.

Definition flush (cur : string) (out : list string) : list string :=
  match cur with
  | EmptyString => out
  | _ => rev_string EmptyString cur :: out
  end.

Fixpoint split_aux (cur : string) (s : string) : list string :=
  match s with
  | EmptyString => flush cur []
  | String c s' =>
      if isspace c then flush cur (split_aux EmptyString s')
      else split_aux (String c cur) s'
  end.

Definition split (s : string) : list string := split_aux EmptyString s.

(** [sep.join(parts)] *)
Fixpoint join (sep : string) (parts : list string) : string :=
  match parts with
  | [] => EmptyString
  | [p] => p
  | p :: rest => p +:+ sep +:+ join sep rest
  end.

(** [s.replace("Z", "+00:00")], the one replacement the program makes: a
    single character is replaced by a string. *)
Fixpoint replace_char (c : ascii) (by_ : string) (s : string) : string :=
  match s with
  | EmptyString => EmptyString
  | String d s' =>
      if Ascii.eqb c d then by_ +:+ replace_char c by_ s'
      else String d (replace_char c by_ s')
  end.

(** [s.encode("utf-8")] for code points below 256. *)
Fixpoint encode_utf8 (s : string) : list Z :=
  match s with
  | EmptyString => []
  | String c s' =>
      let n := code c in
      if n <? 128 then n :: encode_utf8 s'
      else (192 + n / 64) :: (128 + n mod 64) :: encode_utf8 s'
  end.

(** [s[:n]] *)
Fixpoint prefix (n : nat) (s : string) : string :=
  match n, s with
  | S n', String c s' => String c (prefix n' s')
  | _, _ => EmptyString
  end.

End Py.

(** ** hashlib.sha256 (FIPS 180-4), on bytes as integers in 0..255 *)

Module Sha256.

Definition w32 (x : Z) : Z := x mod 4294967296.
Definition add32 (x y : Z) : Z := w32 (x + y).
Definition rotr (n x : Z) : Z := Z.lor (Z.shiftr x n) (w32 (Z.shiftl x (32 - n))).
Definition not32 (x : Z) : Z := 4294967295 - x.

Definition Ch (x y z : Z) : Z := Z.lxor (Z.land x y) (Z.land (not32 x) z).
Definition Maj (x y z : Z) : Z :=
  Z.lxor (Z.lxor (Z.land x y) (Z.land x z)) (Z.land y z).
Definition Sigma0 (x : Z) : Z := Z.lxor (Z.lxor (rotr 2 x) (rotr 13 x)) (rotr 22 x).
Definition Sigma1 (x : Z) : Z := Z.lxor (Z.lxor (rotr 6 x) (rotr 11 x)) (rotr 25 x).
Definition sigma0 (x : Z) : Z := Z.lxor (Z.lxor (rotr 7 x) (rotr 18 x)) (Z.shiftr x 3).
Definition sigma1 (x : Z) : Z := Z.lxor (Z.lxor (rotr 17 x) (rotr 19 x)) (Z.shiftr x 10).

(** The first 64 primes. *)
Definition is_prime (n : nat) : bool :=
  List.forallb (fun d => negb (Nat.eqb (n mod d) 0)) (List.seq 2 (n - 2)).

Definition primes : list Z :=
  List.map Z.of_nat (List.filter is_prime (List.seq 2 310)).

(** The integer cube root of a number below 2^(3 * bits), bit by bit. *)
Fixpoint cbrt_bits (bits : nat) (n r : Z) : Z :=
  match bits with
  | O => r
  | S b =>
      let r' := r + 2 ^ Z.of_nat b in
      cbrt_bits b n (if r' * r' * r' <=? n then r' else r)
  end.

(** The round constants: the first 32 bits of the fractional parts of the
    cube roots of the first 64 primes. *)
Definition K : list Z :=
  Eval vm_compute in
    List.map (fun p => w32 (cbrt_bits 36 (p * 2 ^ 96) 0)) primes.

(** The initial hash value: the first 32 bits of the fractional parts of the
    square roots of the first 8 primes. *)
Definition H0 : list Z :=
  Eval vm_compute in
    List.map (fun p => w32 (Z.sqrt (p * 2 ^ 64))) (List.firstn 8 primes).

(** The message followed by 0x80, zero bytes up to 56 modulo 64, and the
    bit length on eight bytes, big-endian. *)
Definition be_bytes (n : nat) (x : Z) : list Z :=
  List.map (fun i => Z.shiftr x (8 * Z.of_nat i) mod 256) (List.rev (List.seq 0 n)).

Definition pad (msg : list Z) : list Z :=
  let len := Z.of_nat (List.length msg) in
  let zeros := Z.to_nat ((55 - len) mod 64) in
  msg ++ [128] ++ List.repeat 0 zeros ++ be_bytes 8 (8 * len).

Fixpoint words (fuel : nat) (bs : list Z) : list Z :=
  match fuel, bs with
  | S f, a :: b :: c :: d :: rest =>
      (((a * 256 + b) * 256 + c) * 256 + d) :: words f rest
  | _, _ => []
  end.

Fixpoint blocks (fuel : nat) (ws : list Z) : list (list Z) :=
  match fuel, ws with
  | S f, _ :: _ => List.firstn 16 ws :: blocks f (List.skipn 16 ws)
  | _, _ => []
  end.

Record regs := Regs { ra : Z; rb : Z; rc : Z; rd : Z; re : Z; rf : Z; rg : Z; rh : Z }.

(** One round. [win] holds the sixteen schedule words W[t..t+15]. *)
Definition round (st : regs * list Z) (k : Z) : regs * list Z :=
  let '(r, win) := st in
  let w i := List.nth i win 0 in
  let t1 := add32 (add32 (add32 (add32 (rh r) (Sigma1 (re r))) (Ch (re r) (rf r) (rg r))) k) (w 0%nat) in
  let t2 := add32 (Sigma0 (ra r)) (Maj (ra r) (rb r) (rc r)) in
  let next := add32 (add32 (add32 (sigma1 (w 14%nat)) (w 9%nat)) (sigma0 (w 1%nat))) (w 0%nat) in
  (Regs (add32 t1 t2) (ra r) (rb r) (rc r) (add32 (rd r) t1) (re r) (rf r) (rg r),
   List.tl win ++ [next]).

Definition of_list (h : list Z) : regs :=
  let g i := List.nth i h 0 in
  Regs (g 0%nat) (g 1%nat) (g 2%nat) (g 3%nat) (g 4%nat) (g 5%nat) (g 6%nat) (g 7%nat).

Definition compress (h : list Z) (block : list Z) : list Z :=
  let r0 := of_list h in
  let r := fst (List.fold_left round K (r0, block)) in
  [add32 (ra r0) (ra r); add32 (rb r0) (rb r); add32 (rc r0) (rc r); add32 (rd r0) (rd r);
   add32 (re r0) (re r); add32 (rf r0) (rf r); add32 (rg r0) (rg r); add32 (rh r0) (rh r)].

Definition digest (msg : list Z) : list Z :=
  let bs := pad msg in
  let ws := words (List.length bs) bs in
  let h := List.fold_left compress (blocks (List.length ws) ws) H0 in
  List.concat (List.map (be_bytes 4) h).

Definition hex_digit (n : Z) : ascii :=
  if n <? 10 then Py.chr (48 + n) else Py.chr (87 + n).

Fixpoint hex (bs : list Z) : string :=
  match bs with
  | [] => EmptyString
  | b :: rest => String (hex_digit (b / 16)) (String (hex_digit (b mod 16)) (hex rest))
  end.

(** [hashlib.sha256(data).hexdigest()] *)
Definition hexdigest (msg : list Z) : string := hex (digest msg).

End Sha256.

(** ** stable_id *)

(** The string that is hashed: [url.strip() + "|" + (title or "").strip()]. *)
Definition id_key (url title : string) : string :=
  Py.strip url +:+ "|" +:+ Py.strip title.

(** The bytes given to SHA-256. *)
Definition hashed (url title : string) : list Z :=
  Py.encode_utf8 (id_key url title).

Definition stable_id (url title : string) : string :=
  Py.prefix 24 (Sha256.hexdigest (hashed url title)).


(** ** score_item *)

Definition AWARD_TERMS : list string :=
  ["oscar"; "oscars"; "academy award"; "academy awards";
   "bafta"; "emmy"; "golden globe"; "golden globes";
   "sag"; "dga"; "pga"; "wga"; "guild";
   "nominee"; "nominees"; "nomination"; "nominations";
   "shortlist"; "longlist"; "winner"; "winners"; "wins";
   "for your consideration"; "fyc"; "campaign"; "contender"; "awards season";
   "critics choice"; "cannes"; "venice"; "berlin"; "sundance"; "telluride"; "tiff"].

Definition NEGATIVE_HINTS : list string :=
  ["trailer"; "teaser"; "box office"; "first look"; "poster"].

Definition strong : list string :=
  ["nominations"; "nominees"; "shortlist"; "longlist"; "winners"; "wins";
   "eligibility"; "rules"; "deadline"].

(** [min(a, b)] and [max(a, b)] of Python: the first argument is returned
    unless the second is strictly smaller (larger). *)
Definition py_min (a b : float) : float := if (b <? a)%float then b else a.
Definition py_max (a b : float) : float := if (a <? b)%float then b else a.

(** [list(dict.fromkeys(l))]: the keys in the order of their first
    insertion. *)
Definition dict_fromkeys (l : list string) : list string :=
  List.fold_left
    (fun keys k => if List.existsb (String.eqb k) keys then keys else keys ++ [k])
    l [].

(** The first loop: one point and one signal for each award term found. *)
Definition award_pass (t : string) : float * list string :=
  List.fold_left
    (fun '(score, hits) kw =>
       if Py.contains kw t then ((score + 1.0)%float, hits ++ [kw])
       else (score, hits))
    AWARD_TERMS (0.0%float, []).

Definition strong_pass (t : string) (score : float) : float :=
  List.fold_left
    (fun score kw => if Py.contains kw t then (score + 0.6)%float else score)
    strong score.

Definition negative_pass (t : string) (score : float) : float :=
  List.fold_left
    (fun score bad => if Py.contains bad t then (score - 0.8)%float else score)
    NEGATIVE_HINTS score.

Definition clamp (score : float) : float :=
  py_max 0.0%float (py_min score 10.0%float).

Definition score_item (text : string) : float * list string :=
  let t := Py.lower text in
  let '(score, hits) := award_pass t in
  let score := strong_pass t score in
  let score := negative_pass t score in
  let score := clamp score in
  let hits := List.firstn 10 (dict_fromkeys hits) in
  (score, hits).

(** The comparison of two floats: [None] when one of them is NaN. *)
Definition fcompare (x y : float) : option comparison :=
  SFcompare (Prim2SF x) (Prim2SF y).

(** ** Timestamps *)

(** A [datetime] in UTC with whole seconds: the only kind the program
    builds (line 89) and the kind [pub_key] falls back to. *)
Record datetime := Datetime {
  year : Z; month : Z; day : Z; hour : Z; minute : Z; second : Z }.

Definition epoch : datetime := Datetime 1970 1 1 0 0 0.

Definition dt_fields (d : datetime) : list Z :=
  [year d; month d; day d; hour d; minute d; second d].

Fixpoint lex_compare (a b : list Z) : comparison :=
  match a, b with
  | [], [] => Eq
  | [], _ :: _ => Lt
  | _ :: _, [] => Gt
  | x :: a', y :: b' =>
      match x ?= y with
      | Eq => lex_compare a' b'
      | c => c
      end
  end.

(** Two UTC datetimes compare field by field. *)
Definition dt_compare (a b : datetime) : comparison :=
  lex_compare (dt_fields a) (dt_fields b).
Definition dt_ltb (a b : datetime) : bool :=
  match dt_compare a b with Lt => true | _ => false end.

Definition is_leap (y : Z) : bool :=
  ((y mod 4 =? 0) && negb (y mod 100 =? 0)) || (y mod 400 =? 0).

Definition days_in_month (y m : Z) : Z :=
  if m =? 2 then (if is_leap y then 29 else 28)
  else if (m =? 4) || (m =? 6) || (m =? 9) || (m =? 11) then 30
  else 31.

Definition dt_valid (d : datetime) : bool :=
  (1 <=? year d) && (year d <=? 9999)
  && (1 <=? month d) && (month d <=? 12)
  && (1 <=? day d) && (day d <=? days_in_month (year d) (month d))
  && (0 <=? hour d) && (hour d <=? 23)
  && (0 <=? minute d) && (minute d <=? 59)
  && (0 <=? second d) && (second d <=? 59).

Module Iso.

Definition digit (c : ascii) : option Z :=
  let n := Py.code c in
  if (48 <=? n) && (n <=? 57) then Some (n - 48) else None.

(** Reads exactly [n] decimal digits. *)
Fixpoint number (n : nat) (acc : Z) (s : string) : option (Z * string) :=
  match n with
  | O => Some (acc, s)
  | S n' =>
      match s with
      | String c s' =>
          match digit c with
          | Some d => number n' (acc * 10 + d) s'
          | None => None
          end
      | EmptyString => None
      end
  end.

(** Reads the literal [p]. *)
Fixpoint expect (p s : string) : option string :=
  match p, s with
  | EmptyString, _ => Some s
  | String a p', String b s' => if Ascii.eqb a b then expect p' s' else None
  | String _ _, EmptyString => None
  end.

(** Writes [z] on [n] decimal digits, with leading zeros. *)
Fixpoint digits (n : nat) (z : Z) (acc : string) : string :=
  match n with
  | O => acc
  | S n' => digits n' (z / 10) (String (Py.chr (48 + z mod 10)) acc)
  end.

(** [d.isoformat()] for a UTC datetime with whole seconds:
    YYYY-MM-DDTHH:MM:SS+00:00. *)
Definition isoformat (d : datetime) : string :=
  digits 4 (year d) ("-" +:+ digits 2 (month d) ("-" +:+ digits 2 (day d)
    ("T" +:+ digits 2 (hour d) (":" +:+ digits 2 (minute d)
    (":" +:+ digits 2 (second d) "+00:00"))))).

(** [datetime.fromisoformat] on the strings that [isoformat] writes;
    [None] stands for the ValueError. Other ISO 8601 spellings (another
    offset, fractions of a second, no offset) never reach [pub_key] in this
    program and are not read. *)
Definition fromisoformat (s : string) : option datetime :=
  match number 4 0 s with None => None | Some (y, s) =>
  match expect "-" s with None => None | Some s =>
  match number 2 0 s with None => None | Some (mo, s) =>
  match expect "-" s with None => None | Some s =>
  match number 2 0 s with None => None | Some (d, s) =>
  match expect "T" s with None => None | Some s =>
  match number 2 0 s with None => None | Some (h, s) =>
  match expect ":" s with None => None | Some s =>
  match number 2 0 s with None => None | Some (mi, s) =>
  match expect ":" s with None => None | Some s =>
  match number 2 0 s with None => None | Some (sec, s) =>
  match expect "+00:00" s with
  | Some EmptyString =>
      let r := Datetime y mo d h mi sec in
      if dt_valid r then Some r else None
  | _ => None
  end end end end end end end end end end end end.

End Iso.

(** [pub_key] of [main]: the parsed timestamp, or the epoch when parsing
    raises. *)
Definition pub_key (p : string) : datetime :=
  match Iso.fromisoformat (Py.replace_char "Z" "+00:00" p) with
  | Some d => d
  | None => epoch
  end.

(** ** Items, sources and the outside world *)

Inductive outcome (A : Type) : Type :=
| Returned (a : A)
| Raised (detail : string).
Arguments Returned {A} a.
Arguments Raised {A} detail.

(** The dict that both adapters build for an entry. *)
Record item := Item {
  title : string; url : string; summary : string; published : string }.

(** The dict appended to [all_items]. *)
Record scored := Scored {
  base : item;
  id : string;
  score : float;
  hits : list string;
  source : string;
  type : string;
  affects_nom : bool;
  affects_win : bool }.

(** One object of sources.json; a field is [None] when its key is absent. *)
Record source_cfg := SourceCfg {
  s_name : option string;
  s_rss : option string;
  s_url : option string;
  s_type : option string;
  s_affects_nom : option bool;
  s_affects_win : option bool }.

(** A feed entry as [feedparser] gives it: missing attributes read as the
    empty string; [e_summary] is the text BeautifulSoup extracts from the
    summary or description; [e_published] is the UTC datetime of line 89 when
    [published_parsed] is set. *)
Record entry := Entry {
  e_title : string; e_link : string; e_summary : string;
  e_published : option datetime }.

(** An element matched by [soup.select("a[href]")]: its [href] attribute,
    its text ([get_text(" ", strip=True)]) and the text of the paragraph found
    under its parent, if any. *)
Record anchor := Anchor {
  a_href : string; a_text : string; a_blurb : option string }.

(** What lies outside the program: the feed behind a location (or the
    exception [feedparser.parse] raises), the anchors of the page behind a
    location (or the exception [fetch] raises), and urllib's [urlparse(..).netloc]
    and [urljoin]. *)
Record world := World {
  feed : string -> outcome (list entry);
  page : string -> outcome (list anchor);
  netloc : string -> string;
  urljoin : string -> string -> string }.

Definition nonempty (s : string) : bool :=
  match s with EmptyString => false | _ => true end.

(** ** parse_rss *)

Definition rss_item (e : entry) : option item :=
  let title := Py.strip (e_title e) in
  let link := Py.strip (e_link e) in
  let published :=
    match e_published e with
    | Some d => Iso.isoformat d
    | None => EmptyString
    end in
  if nonempty title && nonempty link
  then Some (Item title link (e_summary e) published)
  else None.

Fixpoint rss_items (es : list entry) : list item :=
  match es with
  | [] => []
  | e :: rest =>
      match rss_item e with
      | Some it => it :: rss_items rest
      | None => rss_items rest
      end
  end.

Definition parse_rss (w : world) (rss_url : string) : outcome (list item) :=
  match feed w rss_url with
  | Raised d => Raised d
  | Returned es => Returned (rss_items (List.firstn 40 es))
  end.

(** ** parse_listing *)

Definition bad : list string :=
  ["privacy"; "terms"; "account"; "login"; "subscribe"; "newsletter";
   "contact"; "about"].

Definition squeeze (s : string) : string := Py.join " " (Py.split s).

(** The absolute URL of a link found on [page_url]. *)
Definition full_url (w : world) (page_url : string) (a : anchor) : string :=
  let href := Py.strip (a_href a) in
  if Py.startswith "http" href then href else urljoin w page_url href.

(** The body of the loop over the anchors: [None] for [continue]. *)
Definition listing_item (w : world) (page_url : string) (a : anchor) : option item :=
  let site_host := netloc w page_url in
  let title := squeeze (a_text a) in
  if (String.length title <? 18)%nat then None else
  let full := full_url w page_url a in
  if negb (Py.startswith "http" full) then None else
  if negb (String.eqb (netloc w full) site_host) then None else
  if List.existsb (fun b => Py.contains b (Py.lower full)) bad then None else
  let blurb :=
    match a_blurb a with
    | Some p => squeeze p
    | None => EmptyString
    end in
  Some (Item title full blurb EmptyString).

Fixpoint found (w : world) (page_url : string) (l : list anchor) : list item :=
  match l with
  | [] => []
  | a :: rest =>
      match listing_item w page_url a with
      | Some it => it :: found w page_url rest
      | None => found w page_url rest
      end
  end.

(** The first item of each URL. *)
Fixpoint dedup (seen : gset string) (l : list item) : list item :=
  match l with
  | [] => []
  | it :: rest =>
      if decide (url it ∈ seen) then dedup seen rest
      else it :: dedup ({[url it]} ∪ seen) rest
  end.

Definition listing_items (w : world) (page_url : string) (l : list anchor) : list item :=
  List.firstn 50 (dedup ∅ (found w page_url l)).

Definition parse_listing (w : world) (page_url : string) : outcome (list item) :=
  match page w page_url with
  | Raised d => Raised d
  | Returned l => Returned (listing_items w page_url l)
  end.

(** ** load_seen, save_seen *)

(** state_seen.json: absent, or present with what [json.load] makes of it:
    the list of strings that [save_seen] wrote, or an exception. *)
Inductive state_file :=
| Missing
| Stored (content : outcome (list string)).

Definition load_seen (f : state_file) : outcome (gset string) :=
  match f with
  | Missing => Returned ∅
  | Stored (Returned l) => Returned (list_to_set l)
  | Stored (Raised d) => Raised d
  end.

(** [sorted(l)] on strings: ascending by code points; stable insertion. *)
Fixpoint insert_asc (x : string) (l : list string) : list string :=
  match l with
  | [] => [x]
  | y :: l' => if String.ltb y x then y :: insert_asc x l' else x :: l
  end.

Definition sorted (l : list string) : list string :=
  List.fold_right insert_asc [] l.

Definition save_seen (seen : gset string) : state_file :=
  Stored (Returned (sorted (elements seen))).

(** ** main *)

(** The files and environment variables [main] reads. [MIN_SCORE] is the
    float that [float()] reads from the variable when it is set. *)
Record env := Env {
  sources_json : outcome (list source_cfg);
  state_seen : state_file;
  MIN_SCORE : option float;
  MARK_SEEN : option string }.

(** The sort key of line 263 and the comparison of two keys, as tuples are
    compared: the first components that are not equal decide. *)
Definition sort_key (x : scored) : float * datetime :=
  (score x, pub_key (published (base x))).

Definition key_ltb (a b : float * datetime) : bool :=
  if (fst a =? fst b)%float then dt_ltb (snd a) (snd b)
  else (fst a <? fst b)%float.

(** [all_items.sort(key=..., reverse=True)]: descending, and stable (items
    with equal keys keep their order). The result of a stable sort does not
    depend on the algorithm; insertion is used here. *)
Fixpoint insert_desc (x : scored) (l : list scored) : list scored :=
  match l with
  | [] => [x]
  | y :: l' =>
      if key_ltb (sort_key x) (sort_key y) then y :: insert_desc x l'
      else x :: l
  end.

Definition sort_items (l : list scored) : list scored :=
  List.fold_right insert_desc [] l.

(** [all_items] and [seen], the two variables the item loop updates. *)
Record core := Core { all_items : list scored; seen : gset string }.

Definition item_text (it : item) : string :=
  title it +:+ " " +:+ summary it.

(** [score < min_score] *)
Definition below (score min_score : float) : bool := (score <? min_score)%float.

(** The dict literal of lines 242-251; a missing key of the source raises
    KeyError. *)
Definition make_scored (s : source_cfg) (it : item) (sid : string)
    (score : float) (hits : list string) : outcome scored :=
  match s_name s with None => Raised "'name'" | Some name =>
  match s_type s with None => Raised "'type'" | Some ty =>
  match s_affects_nom s with None => Raised "'affects_nom'" | Some nom =>
  match s_affects_win s with None => Raised "'affects_win'" | Some win =>
  Returned (Scored it sid score hits name ty nom win)
  end end end end.

(** The body of the loop over the items of one source. *)
Definition process_item (min_score : float) (mark_seen : bool) (s : source_cfg)
    (c : core) (it : item) : outcome core :=
  let sid := stable_id (url it) (title it) in
  if decide (sid ∈ seen c) then Returned c else
  let '(score, hits) := score_item (item_text it) in
  if below score min_score then Returned c else
  match make_scored s it sid score hits with
  | Raised d => Raised d
  | Returned r =>
      Returned (Core (all_items c ++ [r])
                     (if mark_seen then {[sid]} ∪ seen c else seen c))
  end.

Fixpoint process_items (min_score : float) (mark_seen : bool) (s : source_cfg)
    (c : core) (items : list item) : outcome core :=
  match items with
  | [] => Returned c
  | it :: rest =>
      match process_item min_score mark_seen s c it with
      | Raised d => Raised d
      | Returned c' => process_items min_score mark_seen s c' rest
      end
  end.

(** [s.get("rss")] is true for a non-empty string. *)
Definition rss_of (s : source_cfg) : option string :=
  match s_rss s with
  | Some u => if nonempty u then Some u else None
  | None => None
  end.

(** The [try] block of lines 222-226. *)
Definition adapter (w : world) (s : source_cfg) : outcome (list item) :=
  match rss_of s with
  | Some u => parse_rss w u
  | None =>
      match s_url s with
      | Some u => parse_listing w u
      | None => Raised "'url'"
      end
  end.

(** The location the adapter asks the network for, if it gets that far. *)
Definition location (s : source_cfg) : list string :=
  match rss_of s with
  | Some u => [u]
  | None => match s_url s with Some u => [u] | None => [] end
  end.

(** The state of the loop over the sources, with the locations requested so
    far. *)
Record state := State {
  st_core : core;
  errors : list string;
  fetched : list string }.

(** One source. [inr] carries an exception that nothing catches. *)
Definition visit (w : world) (min_score : float) (mark_seen : bool)
    (st : state) (s : source_cfg) : state + (string * list string) :=
  let log := fetched st ++ location s in
  match adapter w s with
  | Raised d =>
      match s_name s with
      | Some name => inl (State (st_core st) (errors st ++ [name +:+ ": " +:+ d]) log)
      | None => inr ("'name'", log)
      end
  | Returned items =>
      match process_items min_score mark_seen s (st_core st) items with
      | Returned c => inl (State c (errors st) log)
      | Raised d => inr (d, log)
      end
  end.

Fixpoint run_sources (w : world) (min_score : float) (mark_seen : bool)
    (st : state) (sources : list source_cfg) : state + (string * list string) :=
  match sources with
  | [] => inl st
  | s :: rest =>
      match visit w min_score mark_seen st s with
      | inl st' => run_sources w min_score mark_seen st' rest
      | inr x => inr x
      end
  end.

(** What a run leaves behind: the ranked items handed to [build_html], the
    failures printed at the end, the new state_seen.json and the locations
    requested. *)
Record report := Report {
  digest : list scored;
  failures : list string;
  saved : state_file;
  requests : list string }.

Inductive run :=
| Completed (r : report)
| Aborted (detail : string) (requests : list string).

(** [load_sources]: what [json.load] makes of sources.json, or the
    exception raised on the way. *)
Definition load_sources (e : env) : outcome (list source_cfg) := sources_json e.

Definition min_score_of (e : env) : float :=
  match MIN_SCORE e with Some x => x | None => 3.5%float end.

Definition mark_seen_of (e : env) : bool :=
  match MARK_SEEN e with Some v => String.eqb v "1" | None => false end.

Definition main (w : world) (e : env) : run :=
  match load_sources e with
  | Raised d => Aborted d []
  | Returned sources =>
      match load_seen (state_seen e) with
      | Raised d => Aborted d []
      | Returned seen0 =>
          match run_sources w (min_score_of e) (mark_seen_of e)
                  (State (Core [] seen0) [] []) sources with
          | inr (d, log) => Aborted d log
          | inl st =>
              Completed (Report (sort_items (all_items (st_core st)))
                                (errors st)
                                (save_seen (seen (st_core st)))
                                (fetched st))
          end
      end
  end.

(** ** Vocabulary of the statements *)

(** A float that is not NaN. *)
Definition number (x : float) : Prop := PrimFloat.is_nan x = false.

(** [a] may stand before [b] in the digest: a higher score, or the same
    score and a timestamp that is not older. *)
Definition ranked_before (a b : scored) : Prop :=
  (score b <? score a)%float = true
  \/ ((score a =? score b)%float = true
      /\ dt_compare (pub_key (published (base b))) (pub_key (published (base a))) <> Gt).

(** [a] occurs in [l] somewhere before [b]. *)
Definition precedes (a b : scored) (l : list scored) : Prop :=
  exists l1 l2 l3, l = l1 ++ a :: l2 ++ b :: l3.

(** The source has the four keys that line 242 reads. *)
Definition complete (s : source_cfg) : Prop :=
  is_Some (s_name s) /\ is_Some (s_type s)
  /\ is_Some (s_affects_nom s) /\ is_Some (s_affects_win s).

(** The item loop appends a record for [it], with its score. *)
Definition appended (min_score : float) (mark_seen : bool) (s : source_cfg)
    (c : core) (it : item) : Prop :=
  exists r c',
    process_item min_score mark_seen s c it = Returned c'
    /\ all_items c' = all_items c ++ [r]
    /\ base r = it
    /\ score r = fst (score_item (item_text it)).

(** The identifiers of the records of a list. *)
Definition ids (l : list scored) : gset string := list_to_set (List.map id l).

(** The same files and variables, with another state_seen.json and with
    another source list. *)
Definition with_state (e : env) (f : state_file) : env :=
  Env (sources_json e) f (MIN_SCORE e) (MARK_SEEN e).

Definition with_sources (e : env) (l : list source_cfg) : env :=
  Env (Returned l) (state_seen e) (MIN_SCORE e) (MARK_SEEN e).

(** The identifier and the score that the item loop computes for an item. *)
Definition sid_of (it : item) : string := stable_id (url it) (title it).
Definition score_of (it : item) : float := fst (score_item (item_text it)).

(** The entry of the failure list that a source leaves: none when its
    adapter returns. *)
Definition reported (w : world) (s : source_cfg) : list string :=
  match adapter w s, s_name s with
  | Raised d, Some name => [name +:+ ": " +:+ d]
  | _, _ => []
  end.

(** The start of the loop over the sources. *)
Definition start (seen0 : gset string) : state := State (Core [] seen0) [] [].

(** Nothing of the source [s] would be appended from the seen set [S]: each
    of its items is in [S] or scores below the threshold; a source whose
    adapter raises has the name that the failure entry needs. *)
Definition settled (w : world) (min_score : float) (S : gset string)
    (s : source_cfg) : Prop :=
  match adapter w s with
  | Returned items =>
      forall it, it ∈ items -> (sid_of it ∈ S) \/ below (score_of it) min_score = true
  | Raised _ => is_Some (s_name s)
  end.

(** The loop over [sources] raises before it has anything to request: it
    reaches a source with neither a name nor a location, and the sources
    ahead of that one have a name and no location, so each of them is only
    recorded as a failure. *)
Definition stops_unfetched (sources : list source_cfg) : Prop :=
  exists pre s rest,
    sources = pre ++ s :: rest
    /\ Forall (fun p => location p = [] /\ is_Some (s_name p)) pre
    /\ location s = [] /\ s_name s = None.

(** ** Example data *)

Module Demo.

(** [urlparse(u).netloc] for a URL written scheme://host/path. *)
Fixpoint after_slashes (s : string) : option string :=
  match s with
  | String "/" (String "/" r) => Some r
  | String _ r => after_slashes r
  | EmptyString => None
  end.

Fixpoint until_delim (s : string) : string :=
  match s with
  | String c r =>
      if Ascii.eqb c "/" || Ascii.eqb c "?" || Ascii.eqb c "#" then EmptyString
      else String c (until_delim r)
  | EmptyString => EmptyString
  end.

Definition host_of (u : string) : string :=
  match after_slashes u with
  | Some r => until_delim r
  | None => EmptyString
  end.

Definition dated : entry :=
  Entry "Oscars, BAFTA, Emmy and guild round-up" "https://trade.example/a"
        "" (Some (Datetime 2025 1 23 13 30 0)).
Definition undated : entry :=
  Entry "Oscars, BAFTA, Emmy and guild preview" "https://trade.example/b"
        "" None.
Definition old : entry :=
  Entry "Oscars, BAFTA, Emmy and guild archive" "https://trade.example/c"
        "" (Some (Datetime 1969 12 31 23 59 59)).
Definition teaser : entry :=
  Entry "First Look: New Trailer Poster Revealed" "https://trade.example/d"
        "" None.

Definition article : anchor :=
  Anchor "https://example.com/2025/oscars-shortlist"
         "Oscars shortlist: the nominees and the nominations" None.
Definition outbound : anchor :=
  Anchor "https://other.com/article"
         "Oscars shortlist: the nominees and the nominations" None.
Definition about : anchor :=
  Anchor "https://example.com/About-us"
         "Oscars shortlist: the people behind the coverage" None.

(** Every link of the example page is absolute, so [urljoin] is never
    called. *)
Definition world : world :=
  World
    (fun u =>
       if String.eqb u "https://trade.example/feed"
       then Returned [dated; undated; teaser]
       else if String.eqb u "https://archive.example/feed"
       then Returned [old; undated]
       else Raised "HTTP 503")
    (fun u =>
       if String.eqb u "https://example.com/news"
       then Returned [article; outbound; about]
       else Raised "HTTP 404")
    host_of
    (fun _ href => href).

Definition trade : source_cfg :=
  SourceCfg (Some "Trade") (Some "https://trade.example/feed") None
            (Some "trade") (Some true) (Some false).
Definition down : source_cfg :=
  SourceCfg (Some "Down") (Some "https://down.example/feed") None
            (Some "critic") (Some true) (Some true).
Definition site : source_cfg :=
  SourceCfg (Some "Site") None (Some "https://example.com/news")
            (Some "studio") (Some false) (Some true).
Definition archive : source_cfg :=
  SourceCfg (Some "Archive") (Some "https://archive.example/feed") None
            (Some "trade") (Some true) (Some false).

(** Two malformed sources: one with a name and no location, one with no key
    at all. *)
Definition unlocated : source_cfg :=
  SourceCfg (Some "Unlocated") None None (Some "trade") (Some true) (Some false).
Definition anonymous : source_cfg :=
  SourceCfg None None None None None None.

Definition env (sources : list source_cfg) (mark : option string) : env :=
  Env (Returned sources) Missing None mark.

Definition plain : item :=
  Item "Box office report" "https://trade.example/e" "" "".

End Demo.
(** ** html_escape *)

(** [(s or "").replace("&", "&amp;").replace("<", "&lt;").replace(">", "&gt;")] *)
Definition html_escape (s : string) : string :=
  Py.replace_char ">" "&gt;"
    (Py.replace_char "<" "&lt;" (Py.replace_char "&" "&amp;" s)).

(** ** Vocabulary of the further statements *)

(** What one character becomes in [html_escape]. *)
Definition escaped (c : ascii) : string :=
  if Ascii.eqb c "&" then "&amp;"
  else if Ascii.eqb c "<" then "&lt;"
  else if Ascii.eqb c ">" then "&gt;"
  else String c EmptyString.

(** Every character of [s] satisfies [p]. *)
Fixpoint all_chars (p : ascii -> bool) (s : string) : bool :=
  match s with
  | EmptyString => true
  | String c s' => p c && all_chars p s'
  end.

(** A lower-case hexadecimal digit. *)
Definition is_hex (c : ascii) : bool :=
  let n := Py.code c in
  ((48 <=? n) && (n <=? 57)) || ((97 <=? n) && (n <=? 102)).

(** [a < b] on strings, by code points. *)
Definition str_lt (a b : string) : Prop := String.ltb a b = true.

(** [x] is the record that lines 242-251 build for an item that the adapter
    of [s] returned and that reached the threshold. *)
Definition comes_from (w : world) (min_score : float) (s : source_cfg)
    (x : scored) : Prop :=
  exists items,
    adapter w s = Returned items
    /\ base x ∈ items
    /\ make_scored s (base x) (sid_of (base x)) (score_of (base x))
         (snd (score_item (item_text (base x)))) = Returned x
    /\ below (score x) min_score = false.

(** The sort keys of [k] and [x] are equal: neither is below the other. *)
Definition same_key (k x : scored) : bool :=
  negb (key_ltb (sort_key k) (sort_key x))
  && negb (key_ltb (sort_key x) (sort_key k)).

(** The item is skipped by the item loop in the state [c]. *)
Definition skipped (min_score : float) (c : core) (it : item) : Prop :=
  (sid_of it ∈ seen c) \/ below (score_of it) min_score = true.

(** A string without white space, and a word of [str.split()]: such a
    string that is not empty. *)
Definition solid (s : string) : Prop :=
  all_chars (fun c => negb (Py.isspace c)) s = true.

Definition word (s : string) : Prop := s <> EmptyString /\ solid s.

(** What the run has covered in the state [c]: the identifiers that were
    loaded, or that a record carries. *)
Definition covered (seen0 : gset string) (c : core) : gset string :=
  seen0 ∪ ids (all_items c).

(** What holds of [all_items] and [seen] all along a run: nothing leaves the
    seen set, and every record is new and comes from a source. *)
Definition sound (w : world) (min_score : float) (sources : list source_cfg)
    (seen0 : gset string) (c : core) : Prop :=
  seen0 ⊆ seen c
  /\ Forall (fun x => (id x ∉ seen0)
                      /\ exists s, s ∈ sources /\ comes_from w min_score s x)
            (all_items c).

(** * Proofs

    ** Floats: the order of binary64 that the program relies on *)

Module FloatOrder.

Lemma SFcompare_swap x y :
  SFcompare y x = option_map CompOpp (SFcompare x y).
Proof.
  destruct x as [sx|sx| |sx mx ex], y as [sy|sy| |sy my ey]; simpl;
    try destruct sx; try destruct sy; simpl; try reflexivity.
  all: change (PosDef.Pos.compare_cont Eq) with Pos.compare;
    rewrite (Z.compare_antisym ex ey); destruct (ex ?= ey); simpl;
    try reflexivity; rewrite (Pos.compare_antisym mx my);
    now rewrite ?CompOpp_involutive.
Qed.

Lemma SFcompare_eq_l x y z :
  SFcompare x y = Some Eq -> SFcompare x z = SFcompare y z.
Proof.
  destruct x as [sx|sx| |sx mx ex], y as [sy|sy| |sy my ey]; simpl;
    try destruct sx; try destruct sy; simpl; try discriminate;
    try reflexivity.
  all: change (PosDef.Pos.compare_cont Eq) with Pos.compare;
    destruct (Z.compare_spec ex ey); try discriminate;
    destruct (Pos.compare_spec mx my); try discriminate;
    subst; reflexivity.
Qed.

Lemma SFcompare_lt_trans x y z :
  SFcompare x y = Some Lt -> SFcompare y z = Some Lt -> SFcompare x z = Some Lt.
Proof.
  destruct x as [sx|sx| |sx mx ex], y as [sy|sy| |sy my ey], z as [sz|sz| |sz mz ez];
    simpl; try destruct sx; try destruct sy; try destruct sz; simpl;
    try discriminate; try reflexivity.
  all: change (PosDef.Pos.compare_cont Eq) with Pos.compare.
  all: destruct (Z.compare_spec ex ey); try discriminate;
       destruct (Z.compare_spec ey ez); try discriminate;
       destruct (Z.compare_spec ex ez); try lia; try reflexivity; subst.
  all: destruct (Pos.compare_spec mx my); try discriminate;
       destruct (Pos.compare_spec my mz); try discriminate;
       destruct (Pos.compare_spec mx mz); try lia; try reflexivity.
Qed.

Lemma SFcompare_None x y :
  SFcompare x y = None <-> x = S754_nan \/ y = S754_nan.
Proof.
  destruct x, y; simpl; split; intros H; try discriminate; auto;
    destruct H; discriminate.
Qed.

Lemma ltb_fcompare x y : (x <? y)%float = true <-> fcompare x y = Some Lt.
Proof.
  rewrite FloatAxioms.ltb_spec. unfold SFltb, fcompare.
  destruct (SFcompare _ _) as [[]|]; split; congruence.
Qed.

Lemma eqb_fcompare x y : (x =? y)%float = true <-> fcompare x y = Some Eq.
Proof.
  rewrite FloatAxioms.eqb_spec. unfold SFeqb, fcompare.
  destruct (SFcompare _ _) as [[]|]; split; congruence.
Qed.

Lemma leb_fcompare x y :
  (x <=? y)%float = true <-> fcompare x y = Some Lt \/ fcompare x y = Some Eq.
Proof.
  rewrite FloatAxioms.leb_spec. unfold SFleb, fcompare.
  destruct (SFcompare _ _) as [[]|]; split; intros; try tauto;
    try congruence; destruct H; congruence.
Qed.

Lemma is_nan_spec x : PrimFloat.is_nan x = true <-> Prim2SF x = S754_nan.
Proof.
  unfold PrimFloat.is_nan. rewrite negb_true_iff, <- not_true_iff_false.
  rewrite eqb_fcompare. unfold fcompare.
  destruct (Prim2SF x) as [s|s| |s m e]; simpl; try destruct s; simpl;
    split; try congruence; try tauto.
  all: change (PosDef.Pos.compare_cont Eq) with Pos.compare;
    rewrite Z.compare_refl, Pos.compare_refl; simpl; tauto.
Qed.

Lemma fcompare_total x y :
  PrimFloat.is_nan x = false -> PrimFloat.is_nan y = false ->
  exists c, fcompare x y = Some c.
Proof.
  intros Hx Hy. unfold fcompare.
  destruct (SFcompare _ _) as [c|] eqn:E; [eauto|].
  apply SFcompare_None in E.
  destruct E as [E|E]; apply is_nan_spec in E; congruence.
Qed.

Lemma fcompare_number x y c :
  fcompare x y = Some c ->
  PrimFloat.is_nan x = false /\ PrimFloat.is_nan y = false.
Proof.
  unfold fcompare. intros H.
  split; apply not_true_iff_false; intros N; apply is_nan_spec in N;
    rewrite N in H; [|destruct (Prim2SF x)]; discriminate.
Qed.

Lemma fcompare_swap x y : fcompare y x = option_map CompOpp (fcompare x y).
Proof. apply SFcompare_swap. Qed.

Lemma ltb_leb x y : (x <? y)%float = true -> (x <=? y)%float = true.
Proof. rewrite ltb_fcompare, leb_fcompare. auto. Qed.

(** On numbers, [not (x < y)] is [y <= x]. *)
Lemma ltb_false_leb x y :
  PrimFloat.is_nan x = false -> PrimFloat.is_nan y = false ->
  (x <? y)%float = false <-> (y <=? x)%float = true.
Proof.
  intros Hx Hy. rewrite <- not_true_iff_false, ltb_fcompare, leb_fcompare.
  rewrite (fcompare_swap x y).
  destruct (fcompare_total x y Hx Hy) as [[] ->]; simpl;
    split; intros H; try congruence; try tauto;
    try (exfalso; apply H; reflexivity); destruct H; discriminate.
Qed.

End FloatOrder.

(** ** Strings *)

Section StringFacts.

Lemma length_append (a b : string) :
  String.length (a +:+ b) = (String.length a + String.length b)%nat.
Proof. induction a as [|c a IH]; simpl; [reflexivity | now rewrite IH]. Qed.

Lemma append_inv_head (s x y : string) : s +:+ x = s +:+ y -> x = y.
Proof. induction s as [|c s IH]; simpl; intros H; [assumption|]. injection H. exact IH. Qed.

Lemma append_inv_tail (x y s : string) : x +:+ s = y +:+ s -> x = y.
Proof.
  revert y. induction x as [|c x IH]; intros [|d y] H.
  - reflexivity.
  - apply (f_equal String.length) in H.
    rewrite !length_append in H. simpl in H. lia.
  - apply (f_equal String.length) in H.
    rewrite !length_append in H. simpl in H. lia.
  - simpl in H. injection H as -> H. f_equal. now apply IH.
Qed.

Lemma code_range (c : ascii) : 0 <= Py.code c < 256.
Proof. unfold Py.code. pose proof (N_ascii_bounded c). lia. Qed.

Lemma code_inj (c d : ascii) : Py.code c = Py.code d -> c = d.
Proof.
  unfold Py.code. intros H. apply N2Z.inj in H.
  rewrite <- (ascii_N_embedding c), <- (ascii_N_embedding d). now rewrite H.
Qed.

(** UTF-8 is a code: different strings have different encodings. *)
Lemma encode_utf8_inj (a b : string) :
  Py.encode_utf8 a = Py.encode_utf8 b -> a = b.
Proof.
  revert b. induction a as [|c a IH]; intros [|d b]; simpl.
  - reflexivity.
  - destruct (_ <? _); discriminate.
  - destruct (_ <? _); discriminate.
  - pose proof (code_range c) as Hc. pose proof (code_range d) as Hd.
    destruct (Z.ltb_spec (Py.code c) 128) as [Lc|Lc],
             (Z.ltb_spec (Py.code d) 128) as [Ld|Ld];
      intros H; injection H; clear H.
    + intros H E. apply code_inj in E. subst. f_equal. now apply IH.
    + intros _ E. exfalso.
      assert (2 <= Py.code d / 64) by (apply Z.div_le_lower_bound; lia). lia.
    + intros _ E. exfalso.
      assert (2 <= Py.code c / 64) by (apply Z.div_le_lower_bound; lia). lia.
    + intros H E2 E1. f_equal; [|now apply IH].
      apply code_inj.
      pose proof (Z.div_mod (Py.code c) 64). pose proof (Z.div_mod (Py.code d) 64).
      lia.
Qed.

End StringFacts.

(** ** stable_id *)

Lemma id_key_url_inj (u u' t : string) :
  id_key u t = id_key u' t -> Py.strip u = Py.strip u'.
Proof. unfold id_key. apply append_inv_tail. Qed.

Lemma id_key_title_inj (u t t' : string) :
  id_key u t = id_key u t' -> Py.strip t = Py.strip t'.
Proof.
  unfold id_key. intros H. apply append_inv_head in H.
  now apply (append_inv_head "|") in H.
Qed.

(** C1, as amended. [stable_id] is a function of the trimmed url and the
    trimmed title: pairs that agree after trimming get the same identifier.
    A change of the url alone, or of the title alone, that trimming does not
    remove changes the bytes that are hashed (so the identifiers differ unless
    the 96-bit SHA-256 prefixes collide). *)
Theorem stable_id_trimmed_pair (u t u' t' : string) :
  (Py.strip u = Py.strip u' /\ Py.strip t = Py.strip t' ->
     stable_id u t = stable_id u' t')
  /\ (Py.strip u <> Py.strip u' -> hashed u t <> hashed u' t)
  /\ (Py.strip t <> Py.strip t' -> hashed u t <> hashed u t')
  /\ stable_id u t = Py.prefix 24 (Sha256.hexdigest (hashed u t)).
Proof.
  repeat split.
  - intros [Hu Ht]. unfold stable_id, hashed, id_key. now rewrite Hu, Ht.
  - intros Hne H. apply Hne. apply encode_utf8_inj in H.
    now apply id_key_url_inj in H.
  - intros Hne H. apply Hne. apply encode_utf8_inj in H.
    now apply id_key_title_inj in H.
Qed.

(** C1 as stated fails: moving the separator from the url to the title
    changes both fields and keeps the identifier. *)
Lemma stable_id_separator_collision :
  Py.strip "a|b" <> Py.strip "a" /\ Py.strip "c" <> Py.strip "b|c"
  /\ stable_id "a|b" "c" = stable_id "a" "b|c".
Proof.
  split; [intros H; vm_compute in H; discriminate H|].
  split; [intros H; vm_compute in H; discriminate H|].
  vm_compute. reflexivity.
Qed.

(** ** score_item *)

Section ScoreItem.

Lemma award_pass_fold (t : string) (l : list string) (sc : float) (h : list string) :
  snd (List.fold_left
         (fun '(score, hits) kw =>
            if Py.contains kw t then ((score + 1.0)%float, hits ++ [kw])
            else (score, hits)) l (sc, h))
  = h ++ List.filter (fun kw => Py.contains kw t) l.
Proof.
  revert sc h. induction l as [|kw l IH]; intros sc h; simpl.
  - now rewrite app_nil_r.
  - destruct (Py.contains kw t); rewrite IH; [|reflexivity].
    now rewrite <- app_assoc.
Qed.

Lemma award_pass_hits (t : string) :
  snd (award_pass t) = List.filter (fun kw => Py.contains kw t) AWARD_TERMS.
Proof. unfold award_pass. now rewrite award_pass_fold. Qed.

Lemma existsb_eqb_false (k : string) (keys : list string) :
  k ∉ keys -> List.existsb (String.eqb k) keys = false.
Proof.
  induction keys as [|x keys IH]; simpl; intros H; [reflexivity|].
  apply not_elem_of_cons in H as [Hne Hin].
  rewrite (proj2 (String.eqb_neq k x) Hne). now apply IH.
Qed.

Lemma dict_fromkeys_fold (l acc : list string) :
  NoDup (acc ++ l) ->
  List.fold_left
    (fun keys k => if List.existsb (String.eqb k) keys then keys else keys ++ [k])
    l acc = acc ++ l.
Proof.
  revert acc. induction l as [|k l IH]; intros acc H; simpl.
  - now rewrite app_nil_r.
  - rewrite existsb_eqb_false.
    + rewrite IH; rewrite <- app_assoc; [reflexivity | exact H].
    + apply NoDup_app in H as (_ & H & _). intros Hin. apply (H k Hin). left.
Qed.

(** On a list without repetition, [dict.fromkeys] changes nothing. *)
Lemma dict_fromkeys_NoDup (l : list string) : NoDup l -> dict_fromkeys l = l.
Proof. intros H. unfold dict_fromkeys. now rewrite dict_fromkeys_fold. Qed.

Lemma filter_sublist {A} (p : A -> bool) (l : list A) :
  List.filter p l `sublist_of` l.
Proof.
  induction l as [|x l IH]; simpl; [constructor|].
  destruct (p x); now constructor.
Qed.

Lemma AWARD_TERMS_NoDup : NoDup AWARD_TERMS.
Proof. apply (bool_decide_unpack _). vm_compute. reflexivity. Qed.

(** [max(0.0, min(x, 10.0))] lies in [0, 10] for every float, NaN
    included (it is sent to 0.0). *)
Lemma clamp_range (x : float) :
  (0 <=? clamp x)%float = true /\ (clamp x <=? 10)%float = true.
Proof.
  unfold clamp, py_max, py_min.
  destruct (10 <? x)%float eqn:Hhi.
  - change (0 <? 10)%float with true. cbv iota. split; reflexivity.
  - destruct (0 <? x)%float eqn:Hlo.
    + split; [now apply FloatOrder.ltb_leb|].
      apply FloatOrder.ltb_fcompare, FloatOrder.fcompare_number in Hlo as [_ Hx].
      now apply FloatOrder.ltb_false_leb.
    + split; reflexivity.
Qed.

Lemma clamp_number (x : float) : PrimFloat.is_nan (clamp x) = false.
Proof.
  destruct (clamp_range x) as [H _].
  apply FloatOrder.leb_fcompare in H.
  destruct H as [H|H]; now apply FloatOrder.fcompare_number in H.
Qed.

Lemma score_item_eq (text : string) :
  score_item text =
    (clamp (negative_pass (Py.lower text)
              (strong_pass (Py.lower text) (fst (award_pass (Py.lower text))))),
     take 10 (List.filter (fun kw => Py.contains kw (Py.lower text)) AWARD_TERMS)).
Proof.
  unfold score_item.
  pose proof (award_pass_hits (Py.lower text)) as H.
  destruct (award_pass (Py.lower text)) as [sc h]. cbn [fst snd] in *. subst h.
  rewrite dict_fromkeys_NoDup; [reflexivity|].
  eapply sublist_NoDup; [apply AWARD_TERMS_NoDup | apply filter_sublist].
Qed.

End ScoreItem.

(** C2. For every text, the score lies in [0.0, 10.0] and the signals are
    at most ten, without repetition, and are the first award terms found in
    the text, in the order in which the terms are tried. *)
Theorem score_item_bounded (text : string) :
  (0 <=? fst (score_item text))%float = true
  /\ (fst (score_item text) <=? 10)%float = true
  /\ (length (snd (score_item text)) <= 10)%nat
  /\ NoDup (snd (score_item text))
  /\ snd (score_item text)
     = take 10 (List.filter (fun kw => Py.contains kw (Py.lower text)) AWARD_TERMS).
Proof.
  rewrite score_item_eq. cbn [fst snd].
  repeat split.
  - apply clamp_range.
  - apply clamp_range.
  - apply firstn_le_length.
  - eapply sublist_NoDup; [apply AWARD_TERMS_NoDup|].
    etransitivity; [apply sublist_take | apply filter_sublist].
Qed.

(** ** The ranking *)

Section Ranking.

Lemma lex_compare_swap (a b : list Z) :
  lex_compare b a = CompOpp (lex_compare a b).
Proof.
  revert b. induction a as [|x a IH]; intros [|y b]; simpl; try reflexivity.
  rewrite (Z.compare_antisym x y).
  destruct (x ?= y); simpl; auto.
Qed.

Lemma lex_compare_refl (a : list Z) : lex_compare a a = Eq.
Proof. induction a as [|x a IH]; simpl; [reflexivity|]. now rewrite Z.compare_refl. Qed.

Lemma lex_compare_le_trans (a b c : list Z) :
  lex_compare a b <> Gt -> lex_compare b c <> Gt -> lex_compare a c <> Gt.
Proof.
  revert b c. induction a as [|x a IH]; intros [|y b] [|z c]; simpl;
    try congruence.
  destruct (Z.compare_spec x y), (Z.compare_spec y z), (Z.compare_spec x z);
    try congruence; try lia; subst; eauto.
Qed.

Lemma dt_compare_swap (a b : datetime) :
  dt_compare b a = CompOpp (dt_compare a b).
Proof. apply lex_compare_swap. Qed.

Lemma dt_compare_le_trans (a b c : datetime) :
  dt_compare a b <> Gt -> dt_compare b c <> Gt -> dt_compare a c <> Gt.
Proof. apply lex_compare_le_trans. Qed.

Lemma fcompare_eq_l (x y z : float) :
  fcompare x y = Some Eq -> fcompare x z = fcompare y z.
Proof. apply FloatOrder.SFcompare_eq_l. Qed.

Lemma fcompare_eq_sym (x y : float) :
  fcompare x y = Some Eq -> fcompare y x = Some Eq.
Proof. intros H. rewrite FloatOrder.fcompare_swap, H. reflexivity. Qed.

Lemma fcompare_eq_r (x y z : float) :
  fcompare y z = Some Eq -> fcompare x y = fcompare x z.
Proof.
  intros H. rewrite (FloatOrder.fcompare_swap z x), (FloatOrder.fcompare_swap y x).
  f_equal. symmetry. apply fcompare_eq_l. now apply fcompare_eq_sym.
Qed.

Lemma fcompare_lt_trans (x y z : float) :
  fcompare x y = Some Lt -> fcompare y z = Some Lt -> fcompare x z = Some Lt.
Proof. apply FloatOrder.SFcompare_lt_trans. Qed.

(** [ranked_before] in terms of the two comparisons. *)
Lemma ranked_before_compare (a b : scored) :
  ranked_before a b <->
    fcompare (score b) (score a) = Some Lt
    \/ (fcompare (score a) (score b) = Some Eq
        /\ dt_compare (pub_key (published (base b))) (pub_key (published (base a))) <> Gt).
Proof.
  unfold ranked_before.
  now rewrite FloatOrder.ltb_fcompare, FloatOrder.eqb_fcompare.
Qed.

Lemma ranked_before_trans (a b c : scored) :
  ranked_before a b -> ranked_before b c -> ranked_before a c.
Proof.
  rewrite !ranked_before_compare.
  intros [Hab|[Eab Dab]] [Hbc|[Ebc Dbc]].
  - left. eapply fcompare_lt_trans; eassumption.
  - left. rewrite (fcompare_eq_l (score c) (score b)); [assumption|].
    now apply fcompare_eq_sym.
  - left. now rewrite (fcompare_eq_r (score c) (score a) (score b)).
  - right. split.
    + now rewrite (fcompare_eq_l (score a) (score b)).
    + eapply dt_compare_le_trans; eassumption.
Qed.

(** When [x < y] fails on the keys, [x] may stand before [y]. *)
Lemma key_ltb_false (x y : scored) :
  number (score x) -> number (score y) ->
  key_ltb (sort_key x) (sort_key y) = false -> ranked_before x y.
Proof.
  intros Nx Ny. unfold key_ltb, sort_key. cbn [fst snd].
  rewrite ranked_before_compare.
  destruct (score x =? score y)%float eqn:E.
  - apply FloatOrder.eqb_fcompare in E. intros H. right. split; [assumption|].
    unfold dt_ltb in H. rewrite dt_compare_swap.
    destruct (dt_compare _ _); simpl; congruence.
  - intros H. left.
    apply not_true_iff_false in E, H.
    rewrite FloatOrder.eqb_fcompare in E. rewrite FloatOrder.ltb_fcompare in H.
    rewrite FloatOrder.fcompare_swap.
    destruct (FloatOrder.fcompare_total _ _ Nx Ny) as [[] Hc];
      rewrite Hc in *; simpl; congruence.
Qed.

(** When [x < y] holds on the keys, [y] may stand before [x]. *)
Lemma key_ltb_true (x y : scored) :
  key_ltb (sort_key x) (sort_key y) = true -> ranked_before y x.
Proof.
  unfold key_ltb, sort_key. cbn [fst snd].
  rewrite ranked_before_compare.
  destruct (score x =? score y)%float eqn:E.
  - apply FloatOrder.eqb_fcompare in E. intros H. right.
    split; [now apply fcompare_eq_sym|].
    unfold dt_ltb in H. destruct (dt_compare _ _); congruence.
  - intros H. left. now apply FloatOrder.ltb_fcompare.
Qed.

Lemma insert_desc_perm (x : scored) (l : list scored) :
  insert_desc x l ≡ₚ x :: l.
Proof.
  induction l as [|y l IH]; simpl; [reflexivity|].
  destruct (key_ltb _ _); [|reflexivity].
  rewrite IH. apply Permutation_swap.
Qed.

(** Sorting keeps every item. *)
Lemma sort_items_perm (l : list scored) : sort_items l ≡ₚ l.
Proof.
  induction l as [|x l IH]; simpl; [reflexivity|].
  unfold sort_items in *. simpl. now rewrite insert_desc_perm, IH.
Qed.

Lemma insert_desc_sorted (x : scored) (l : list scored) :
  number (score x) -> Forall (fun y => number (score y)) l ->
  StronglySorted ranked_before l ->
  StronglySorted ranked_before (insert_desc x l).
Proof.
  intros Nx Nl Hs. induction Hs as [|y l Hs IH Hy]; simpl.
  - repeat constructor.
  - apply Forall_cons in Nl as [Ny Nl].
    destruct (key_ltb (sort_key x) (sort_key y)) eqn:E.
    + constructor; [now apply IH|].
      rewrite insert_desc_perm. constructor; [|assumption].
      now apply key_ltb_true.
    + apply key_ltb_false in E; [|assumption..].
      constructor; [now constructor|].
      constructor; [assumption|].
      eapply Forall_impl; [exact Hy|].
      intros z Hz. eapply ranked_before_trans; eassumption.
Qed.

Lemma sort_items_sorted (l : list scored) :
  Forall (fun y => number (score y)) l ->
  StronglySorted ranked_before (sort_items l).
Proof.
  induction 1 as [|x l Nx Nl IH]; simpl; [constructor|].
  apply insert_desc_sorted; [assumption| |assumption].
  fold (sort_items l). now rewrite sort_items_perm.
Qed.

(** In a ranked list, an item that may not stand after another one stands
    before it. *)
Lemma sorted_precedes (l : list scored) (a b : scored) :
  StronglySorted ranked_before l ->
  a ∈ l -> b ∈ l -> ~ ranked_before b a -> a <> b ->
  precedes a b l.
Proof.
  intros Hs. induction Hs as [|x l Hs IH Hx]; intros Ha Hb Hn Hne.
  - inversion Ha.
  - apply elem_of_cons in Ha, Hb.
    destruct Ha as [->|Ha], Hb as [->|Hb].
    + congruence.
    + apply list_elem_of_split in Hb as (l2 & l3 & ->).
      now exists [], l2, l3.
    + exfalso. apply Hn. rewrite Forall_forall in Hx. now apply Hx.
    + destruct (IH Ha Hb Hn Hne) as (l1 & l2 & l3 & ->).
      now exists (x :: l1), l2, l3.
Qed.

(** With equal scores, an item dated after the epoch may not stand after
    an item whose timestamp does not parse. *)
Lemma dated_not_after_undated (a b : scored) :
  (score a =? score b)%float = true ->
  dt_ltb epoch (pub_key (published (base a))) = true ->
  pub_key (published (base b)) = epoch ->
  ~ ranked_before b a /\ a <> b.
Proof.
  intros E D U. apply FloatOrder.eqb_fcompare in E.
  unfold dt_ltb in D. split.
  - rewrite ranked_before_compare, U. intros [H|[_ H]].
    + congruence.
    + rewrite dt_compare_swap in H. destruct (dt_compare epoch _); simpl in *; congruence.
  - intros ->. rewrite U in D. unfold dt_compare in D.
    now rewrite lex_compare_refl in D.
Qed.

End Ranking.

(** ** The loops of [main] *)

Section Loops.

Variable w : world.
Variable min_score : float.
Variable mark_seen : bool.

Lemma make_scored_inv s it sid sc h r :
  make_scored s it sid sc h = Returned r ->
  base r = it /\ id r = sid /\ score r = sc /\ hits r = h.
Proof.
  unfold make_scored.
  destruct (s_name s), (s_type s), (s_affects_nom s), (s_affects_win s);
    try discriminate.
  intros [= <-]. auto.
Qed.

Lemma make_scored_complete s it sid sc h :
  complete s -> exists r, make_scored s it sid sc h = Returned r.
Proof.
  intros ([n Hn] & [t Ht] & [a Ha] & [b Hb]). unfold make_scored.
  rewrite Hn, Ht, Ha, Hb. eauto.
Qed.

(** The three ways through the body of the item loop. *)
Lemma process_item_inv s c it c' :
  process_item min_score mark_seen s c it = Returned c' ->
  (c' = c /\ ((sid_of it ∈ seen c) \/ below (score_of it) min_score = true))
  \/ ((sid_of it ∉ seen c) /\ below (score_of it) min_score = false
      /\ exists r, base r = it /\ id r = sid_of it /\ score r = score_of it
           /\ c' = Core (all_items c ++ [r])
                        (if mark_seen then {[sid_of it]} ∪ seen c else seen c)).
Proof.
  unfold process_item, sid_of, score_of.
  destruct (decide (_ ∈ seen c)) as [Hin|Hin]; [intros [= <-]; auto|].
  destruct (score_item (item_text it)) as [sc h]. cbn [fst].
  destruct (below sc min_score); [intros [= <-]; auto|].
  destruct (make_scored _ _ _ _ _) as [r|d] eqn:E; [|discriminate].
  intros [= <-]. right. apply make_scored_inv in E as (? & ? & ? & ?).
  repeat split; try assumption. exists r. auto.
Qed.

Lemma process_item_unseen s c it :
  complete s -> sid_of it ∉ seen c ->
  below (score_of it) min_score = false ->
  appended min_score mark_seen s c it.
Proof.
  intros Hs Hin Hb. unfold appended, process_item.
  fold (sid_of it). destruct (decide (_ ∈ seen c)); [contradiction|].
  unfold score_of in Hb.
  destruct (score_item (item_text it)) as [sc h] eqn:E. cbn [fst] in *.
  rewrite Hb.
  destruct (make_scored_complete s it (sid_of it) sc h Hs) as [r Hr].
  rewrite Hr. apply make_scored_inv in Hr as (? & ? & ? & ?).
  exists r, (Core (all_items c ++ [r])
               (if mark_seen then {[sid_of it]} ∪ seen c else seen c)).
  auto.
Qed.

Lemma appended_inv s c it :
  appended min_score mark_seen s c it ->
  (sid_of it ∉ seen c) /\ below (score_of it) min_score = false.
Proof.
  intros (r & c' & H & Hall & _).
  apply process_item_inv in H as [[-> _]|(? & ? & _)]; [|auto].
  exfalso. apply (f_equal (@length scored)) in Hall.
  rewrite length_app in Hall. simpl in Hall. lia.
Qed.

(** A property of [all_items] and [seen] that every step of the item loop
    keeps holds when the loop over the sources ends. *)
Section Invariant.

Variable P : core -> Prop.
Hypothesis step : forall s c it c',
  P c -> process_item min_score mark_seen s c it = Returned c' -> P c'.

Lemma process_items_inv s items : forall c c',
  P c -> process_items min_score mark_seen s c items = Returned c' -> P c'.
Proof.
  induction items as [|it items IH]; simpl; intros c c' Hc H.
  - now injection H as <-.
  - destruct (process_item _ _ _ _ _) as [c1|d] eqn:E; [|discriminate].
    eapply IH; [|exact H]. eapply step; eassumption.
Qed.

Lemma visit_inv st s st' :
  P (st_core st) -> visit w min_score mark_seen st s = inl st' ->
  P (st_core st').
Proof.
  unfold visit. intros Hc.
  destruct (adapter w s) as [items|d].
  - destruct (process_items _ _ _ _ _) as [c|d] eqn:E; [|discriminate].
    intros [= <-]. simpl. eapply process_items_inv; eassumption.
  - destruct (s_name s); [|discriminate]. now intros [= <-].
Qed.

Lemma run_sources_inv sources : forall st st',
  P (st_core st) ->
  run_sources w min_score mark_seen st sources = inl st' ->
  P (st_core st').
Proof.
  induction sources as [|s sources IH]; simpl; intros st st' Hc H.
  - now injection H as <-.
  - destruct (visit _ _ _ _ _) as [st1|x] eqn:E; [|discriminate].
    eapply IH; [|exact H]. eapply visit_inv; eassumption.
Qed.

End Invariant.

(** Every collected score is a number. *)
Lemma run_sources_numbers sources st st' :
  Forall (fun r => number (score r)) (all_items (st_core st)) ->
  run_sources w min_score mark_seen st sources = inl st' ->
  Forall (fun r => number (score r)) (all_items (st_core st')).
Proof.
  apply (run_sources_inv (fun c => Forall (fun r => number (score r)) (all_items c))).
  intros s c it c' Hc H.
  apply process_item_inv in H as [[-> _]|(_ & _ & r & _ & _ & Hr & ->)];
    [assumption|]. simpl.
  apply Forall_app. split; [assumption|]. constructor; [|constructor].
  rewrite Hr. unfold number, score_of. rewrite score_item_eq. apply clamp_number.
Qed.

(** The seen set grows by the identifiers of the appended records when
    marking is on, and not at all when it is off. *)
Lemma run_sources_marks seen0 sources st' :
  run_sources w min_score mark_seen (start seen0) sources = inl st' ->
  seen (st_core st')
  = if mark_seen then seen0 ∪ ids (all_items (st_core st')) else seen0.
Proof.
  apply (run_sources_inv
           (fun c => seen c = if mark_seen then seen0 ∪ ids (all_items c) else seen0)).
  - intros s c it c' Hc H.
    apply process_item_inv in H as [[-> _]|(_ & _ & r & _ & Hid & _ & ->)];
      [assumption|]. simpl.
    destruct mark_seen; [|assumption].
    rewrite Hc. unfold ids. rewrite map_app, list_to_set_app_L. simpl.
    rewrite Hid. set_solver.
  - simpl. destruct mark_seen; [|reflexivity]. unfold ids. simpl. set_solver.
Qed.

(** The failure list and the request log are read off the sources. *)
Lemma run_sources_logs sources : forall st st',
  run_sources w min_score mark_seen st sources = inl st' ->
  errors st' = errors st ++ flat_map (reported w) sources
  /\ fetched st' = fetched st ++ flat_map location sources.
Proof.
  induction sources as [|s sources IH]; simpl; intros st st' H.
  - injection H as <-. now rewrite !app_nil_r.
  - destruct (visit _ _ _ _ _) as [st1|x] eqn:E; [|discriminate].
    apply IH in H as [He Hf]. rewrite He, Hf. clear He Hf.
    unfold visit, reported in *.
    destruct (adapter w s) as [items|d].
    + destruct (process_items _ _ _ _ _); [|discriminate].
      injection E as <-. simpl. now rewrite app_assoc.
    + destruct (s_name s); [|discriminate].
      injection E as <-. simpl. now rewrite <- !app_assoc.
Qed.

(** [all_items] and [seen] after a source depend on the state through
    [all_items] and [seen] only. *)
Lemma visit_core st1 st2 s a :
  st_core st1 = st_core st2 ->
  visit w min_score mark_seen st1 s = inl a ->
  exists b, visit w min_score mark_seen st2 s = inl b /\ st_core b = st_core a.
Proof.
  unfold visit. intros <-.
  destruct (adapter w s) as [items|d].
  - destruct (process_items _ _ _ _ _); [|discriminate].
    intros [= <-]. eauto.
  - destruct (s_name s); [|discriminate]. intros [= <-]. eauto.
Qed.

Lemma run_sources_core sources : forall st1 st2 a,
  st_core st1 = st_core st2 ->
  run_sources w min_score mark_seen st1 sources = inl a ->
  exists b, run_sources w min_score mark_seen st2 sources = inl b
            /\ st_core b = st_core a.
Proof.
  induction sources as [|s sources IH]; simpl; intros st1 st2 a Hc H.
  - injection H as <-. eauto.
  - destruct (visit w min_score mark_seen st1 s) as [a1|x] eqn:E; [|discriminate].
    destruct (visit_core st1 st2 s a1 Hc E) as (b1 & -> & Hb).
    eapply IH; [|exact H]. now symmetry.
Qed.

Lemma run_sources_app l1 l2 st :
  run_sources w min_score mark_seen st (l1 ++ l2)
  = match run_sources w min_score mark_seen st l1 with
    | inl st1 => run_sources w min_score mark_seen st1 l2
    | inr x => inr x
    end.
Proof.
  revert st. induction l1 as [|s l1 IH]; simpl; intros st; [reflexivity|].
  destruct (visit _ _ _ _ _); [apply IH | reflexivity].
Qed.

(** A source whose adapter raises is recorded, and the loop goes on. *)
Lemma visit_failure st s d name :
  adapter w s = Raised d -> s_name s = Some name ->
  visit w min_score mark_seen st s
  = inl (State (st_core st) (errors st ++ [name +:+ ": " +:+ d])
               (fetched st ++ location s)).
Proof. intros Ha Hn. unfold visit. now rewrite Ha, Hn. Qed.

(** Leaving out a source whose adapter raises changes neither [all_items]
    nor [seen]. *)
Lemma run_sources_skip l1 s l2 d name st a :
  adapter w s = Raised d -> s_name s = Some name ->
  run_sources w min_score mark_seen st (l1 ++ l2) = inl a ->
  exists b, run_sources w min_score mark_seen st (l1 ++ s :: l2) = inl b
            /\ st_core b = st_core a.
Proof.
  intros Ha Hn. rewrite !run_sources_app.
  destruct (run_sources w min_score mark_seen st l1) as [st1|x]; [|discriminate].
  simpl. rewrite (visit_failure st1 s d name Ha Hn).
  apply run_sources_core. reflexivity.
Qed.

End Loops.

(** ** The seen set across runs *)

Section SeenSet.

Variable w : world.
Variable min_score : float.

Lemma insert_asc_perm (x : string) (l : list string) : insert_asc x l ≡ₚ x :: l.
Proof.
  induction l as [|y l IH]; simpl; [reflexivity|].
  destruct (String.ltb y x); [|reflexivity].
  rewrite IH. apply Permutation_swap.
Qed.

Lemma sorted_perm (l : list string) : sorted l ≡ₚ l.
Proof.
  induction l as [|x l IH]; [reflexivity|].
  unfold sorted in *. simpl. now rewrite insert_asc_perm, IH.
Qed.

(** What [save_seen] writes, [load_seen] reads back. *)
Lemma load_save (S : gset string) : load_seen (save_seen S) = Returned S.
Proof.
  unfold save_seen, load_seen. f_equal.
  rewrite (list_to_set_perm_L _ _ (sorted_perm (elements S))).
  apply list_to_set_elements_L.
Qed.

Lemma process_items_marking s items : forall c c',
  process_items min_score true s c items = Returned c' ->
  seen c ⊆ seen c'
  /\ forall it, it ∈ items ->
       (sid_of it ∈ seen c') \/ below (score_of it) min_score = true.
Proof.
  induction items as [|it items IH]; simpl; intros c c' H.
  - injection H as <-. split; [reflexivity|]. intros it Hit. inversion Hit.
  - destruct (process_item min_score true s c it) as [c1|d] eqn:E; [|discriminate].
    destruct (IH _ _ H) as [Hsub Hrest].
    assert (seen c ⊆ seen c1
            /\ ((sid_of it ∈ seen c1) \/ below (score_of it) min_score = true))
      as [Hc Hit].
    { apply process_item_inv in E
        as [[-> [?|?]]|(_ & _ & r & _ & _ & _ & ->)]; simpl;
        split; auto; set_solver. }
    split; [set_solver|].
    intros it' Hin. apply elem_of_cons in Hin as [->|Hin]; [|auto].
    destruct Hit as [Hit|Hit]; [left; set_solver | now right].
Qed.

Lemma settled_mono (S S' : gset string) (s : source_cfg) :
  S ⊆ S' -> settled w min_score S s -> settled w min_score S' s.
Proof.
  unfold settled. intros Hsub. destruct (adapter w s); [|auto].
  intros H it Hit. destruct (H it Hit); [left; set_solver | now right].
Qed.

(** After a run that marks, every source is settled for the final seen
    set. *)
Lemma run_sources_marking sources : forall st st',
  run_sources w min_score true st sources = inl st' ->
  seen (st_core st) ⊆ seen (st_core st')
  /\ Forall (settled w min_score (seen (st_core st'))) sources.
Proof.
  induction sources as [|s sources IH]; simpl; intros st st' H.
  - injection H as <-. split; [reflexivity | constructor].
  - destruct (visit w min_score true st s) as [st1|x] eqn:E; [|discriminate].
    destruct (IH _ _ H) as [Hsub Hall].
    assert (seen (st_core st) ⊆ seen (st_core st1)
            /\ settled w min_score (seen (st_core st1)) s) as [Hc Hs].
    { unfold visit, settled in *. destruct (adapter w s) as [items|d].
      - destruct (process_items min_score true s (st_core st) items)
          as [c|d] eqn:Ei; [|discriminate].
        injection E as <-. simpl. now apply process_items_marking in Ei.
      - destruct (s_name s); [|discriminate].
        injection E as <-. simpl. split; [reflexivity | eauto]. }
    split; [set_solver|].
    constructor; [|assumption]. eapply settled_mono; eassumption.
Qed.

Variable mark_seen : bool.

Lemma process_items_settled s items : forall c,
  (forall it, it ∈ items ->
     (sid_of it ∈ seen c) \/ below (score_of it) min_score = true) ->
  process_items min_score mark_seen s c items = Returned c.
Proof.
  induction items as [|it items IH]; simpl; intros c H; [reflexivity|].
  assert (process_item min_score mark_seen s c it = Returned c) as ->.
  { unfold process_item. fold (sid_of it).
    destruct (decide (sid_of it ∈ seen c)) as [|Hn]; [reflexivity|].
    destruct (H it) as [?|Hb]; [left | contradiction |].
    unfold score_of in Hb. destruct (score_item (item_text it)) as [sc h].
    cbn [fst] in Hb. now rewrite Hb. }
  apply IH. intros it' Hin. apply H. now right.
Qed.

(** When every source is settled, the loop appends nothing and marks
    nothing. *)
Lemma run_sources_settled sources : forall st,
  Forall (settled w min_score (seen (st_core st))) sources ->
  exists st', run_sources w min_score mark_seen st sources = inl st'
              /\ st_core st' = st_core st.
Proof.
  induction sources as [|s sources IH]; simpl; intros st H; [eauto|].
  apply Forall_cons in H as [Hs Hall].
  assert (exists st1, visit w min_score mark_seen st s = inl st1
                      /\ st_core st1 = st_core st) as (st1 & -> & Hc).
  { unfold visit, settled in *. destruct (adapter w s) as [items|d].
    - rewrite process_items_settled by assumption. eauto.
    - destruct Hs as [name ->]. eauto. }
  destruct (IH st1) as (st' & Hrun & Hc'); [now rewrite Hc|].
  exists st'. split; [assumption | congruence].
Qed.

End SeenSet.

(** ** main *)

Lemma main_completed (w : world) (e : env) (r : report) :
  main w e = Completed r ->
  exists sources seen0 st,
    sources_json e = Returned sources
    /\ load_seen (state_seen e) = Returned seen0
    /\ run_sources w (min_score_of e) (mark_seen_of e) (start seen0) sources = inl st
    /\ r = Report (sort_items (all_items (st_core st))) (errors st)
                  (save_seen (seen (st_core st))) (fetched st).
Proof.
  unfold main, load_sources, start.
  destruct (sources_json e) as [sources|d]; [|discriminate].
  destruct (load_seen (state_seen e)) as [seen0|d]; [|discriminate].
  destruct (run_sources _ _ _ _ _) as [st|[d log]] eqn:E; [|discriminate].
  intros [= <-]. exists sources, seen0, st. auto.
Qed.

Lemma main_of_run (w : world) (e : env) sources seen0 st :
  sources_json e = Returned sources ->
  load_seen (state_seen e) = Returned seen0 ->
  run_sources w (min_score_of e) (mark_seen_of e) (start seen0) sources = inl st ->
  main w e = Completed (Report (sort_items (all_items (st_core st))) (errors st)
                               (save_seen (seen (st_core st))) (fetched st)).
Proof. unfold main, load_sources, start. now intros -> -> ->. Qed.

(** Every record of the digest reached the threshold. *)
Lemma digest_not_below (w : world) (e : env) (r : report) (x : scored) :
  main w e = Completed r -> x ∈ digest r ->
  below (score x) (min_score_of e) = false.
Proof.
  intros H Hx.
  apply main_completed in H as (sources & seen0 & st & _ & _ & Hrun & ->).
  simpl in Hx. rewrite sort_items_perm in Hx. revert x Hx.
  apply Forall_forall.
  eapply (run_sources_inv w (min_score_of e) (mark_seen_of e)
            (fun c => Forall (fun x => below (score x) (min_score_of e) = false)
                        (all_items c))); [| |exact Hrun].
  - intros s c it c' Hc Hstep.
    apply process_item_inv in Hstep
      as [[-> _]|(_ & Hb & x & _ & _ & Hx & ->)]; [assumption|]. simpl.
    apply Forall_app. split; [assumption|].
    constructor; [now rewrite Hx | constructor].
  - constructor.
Qed.

(** C3, as amended. For a threshold that is a number (not NaN), an item
    that reaches the scoring step unseen is appended to the output if and only
    if its score is at least the threshold; a score of exactly 3.5 passes the
    threshold 3.5 and a score of 3.49 does not. *)
Theorem threshold_filter (min_score : float) (mark_seen : bool)
    (s : source_cfg) (c : core) (it : item) :
  number min_score -> complete s -> sid_of it ∉ seen c ->
  (appended min_score mark_seen s c it
   <-> (min_score <=? score_of it)%float = true)
  /\ below 3.5 3.5 = false /\ below 3.49 3.5 = true.
Proof.
  intros Hmin Hs Hunseen.
  assert (number (score_of it)) as Hsc
      by (unfold number, score_of; rewrite score_item_eq; apply clamp_number).
  split; [|split; reflexivity].
  rewrite <- (FloatOrder.ltb_false_leb (score_of it) min_score Hsc Hmin).
  split.
  - intros H. now apply appended_inv in H.
  - intros H. now apply process_item_unseen.
Qed.

Lemma threshold_filter_witness :
  appended 3.5 true Demo.trade (Core [] ∅) (Item "Oscars, BAFTA, Emmy and guild round-up" "https://trade.example/a" "" "")
  <-> (3.5 <=? score_of (Item "Oscars, BAFTA, Emmy and guild round-up" "https://trade.example/a" "" ""))%float = true.
Proof.
  apply (threshold_filter 3.5 true Demo.trade (Core [] ∅)).
  - reflexivity.
  - unfold complete. simpl. eauto.
  - apply not_elem_of_empty.
Defined.

(** C3 as stated fails for the threshold NaN: nothing is below NaN, so an
    item of score 0.0 is appended although [NaN <= 0.0] is false. *)
Lemma threshold_nan_keeps_everything :
  appended nan false Demo.trade (Core [] ∅) Demo.plain
  /\ (nan <=? score_of Demo.plain)%float = false.
Proof.
  split; [|vm_compute; reflexivity].
  apply process_item_unseen.
  - unfold complete. simpl. eauto.
  - apply not_elem_of_empty.
  - vm_compute. reflexivity.
Qed.

(** C4, as amended. The digest holds every collected record, in descending
    order of score and, among equal scores, of parsed timestamp; a timestamp
    that does not parse counts as the epoch; with equal scores, a record dated
    after the epoch precedes a record whose timestamp does not parse. *)
Theorem digest_ranked (w : world) (e : env) (r : report) :
  main w e = Completed r ->
  (exists sources seen0 st,
     sources_json e = Returned sources
     /\ load_seen (state_seen e) = Returned seen0
     /\ run_sources w (min_score_of e) (mark_seen_of e) (start seen0) sources = inl st
     /\ digest r ≡ₚ all_items (st_core st))
  /\ StronglySorted ranked_before (digest r)
  /\ (forall p, Iso.fromisoformat (Py.replace_char "Z" "+00:00" p) = None ->
        pub_key p = epoch)
  /\ (forall a b, a ∈ digest r -> b ∈ digest r ->
        (score a =? score b)%float = true ->
        dt_ltb epoch (pub_key (published (base a))) = true ->
        Iso.fromisoformat (Py.replace_char "Z" "+00:00" (published (base b))) = None ->
        precedes a b (digest r)).
Proof.
  intros H.
  apply main_completed in H as (sources & seen0 & st & Hsrc & Hseen & Hrun & ->).
  assert (StronglySorted ranked_before (sort_items (all_items (st_core st)))) as Hs.
  { apply sort_items_sorted.
    eapply run_sources_numbers; [|exact Hrun]. constructor. }
  assert (forall p, Iso.fromisoformat (Py.replace_char "Z" "+00:00" p) = None ->
                    pub_key p = epoch) as Hp
      by (intros p Hp; unfold pub_key; now rewrite Hp).
  cbn [digest]. repeat split.
  - exists sources, seen0, st. auto using sort_items_perm.
  - exact Hs.
  - exact Hp.
  - intros a b Ha Hb Heq Hdated Hundated.
    destruct (dated_not_after_undated a b Heq Hdated (Hp _ Hundated)).
    now apply sorted_precedes.
Qed.

Lemma digest_ranked_witness :
  exists r, main Demo.world (Demo.env [Demo.trade] None) = Completed r
            /\ StronglySorted ranked_before (digest r).
Proof.
  eexists. split; [vm_compute; reflexivity|].
  apply (digest_ranked Demo.world (Demo.env [Demo.trade] None)).
  vm_compute. reflexivity.
Defined.

(** C4 as stated fails for a timestamp before the epoch: of two records of
    score 5.0, the one dated 1969 comes after the one without a date. *)
Lemma dated_1969_after_undated :
  exists a b saved log,
    main Demo.world (Demo.env [Demo.archive] None)
    = Completed (Report [b; a] [] saved log)
    /\ score a = 5%float /\ score b = 5%float
    /\ Iso.fromisoformat (Py.replace_char "Z" "+00:00" (published (base a)))
       = Some (Datetime 1969 12 31 23 59 59)
    /\ Iso.fromisoformat (Py.replace_char "Z" "+00:00" (published (base b))) = None.
Proof.
  do 4 eexists. split; [vm_compute; reflexivity|].
  repeat split; vm_compute; reflexivity.
Qed.

(** C5. After a completed run that marks, a second run over the same
    sources and the same content, from the saved seen set, has an empty
    digest: every record of the first digest is in the saved set, and nothing
    else passes the threshold; the seen set is saved unchanged. *)
Theorem second_run_empty (w : world) (e : env) (r : report) :
  mark_seen_of e = true -> main w e = Completed r ->
  (exists S, load_seen (saved r) = Returned S
             /\ forall x, x ∈ digest r -> id x ∈ S)
  /\ exists r2, main w (with_state e (saved r)) = Completed r2
                /\ digest r2 = [] /\ saved r2 = saved r.
Proof.
  intros Hmark H.
  apply main_completed in H as (sources & seen0 & st & Hsrc & Hseen & Hrun & ->).
  cbn [saved digest]. split.
  - exists (seen (st_core st)). split; [apply load_save|].
    intros x Hx. rewrite sort_items_perm in Hx.
    rewrite (run_sources_marks _ _ _ _ _ _ Hrun), Hmark.
    apply elem_of_union_r. unfold ids. apply elem_of_list_to_set.
    apply list_elem_of_fmap. eauto.
  - rewrite Hmark in Hrun.
    destruct (run_sources_marking _ _ _ _ _ Hrun) as [_ Hall].
    destruct (run_sources_settled w (min_score_of e) (mark_seen_of e) sources
                (start (seen (st_core st))) Hall) as (st2 & Hrun2 & Hc).
    eexists. split.
    + apply (main_of_run w (with_state e (save_seen (seen (st_core st))))
               sources (seen (st_core st)) st2);
        [exact Hsrc | apply load_save | exact Hrun2].
    + rewrite Hc. split; reflexivity.
Qed.

Lemma second_run_empty_witness :
  exists r r2,
    main Demo.world (Demo.env [Demo.trade; Demo.down; Demo.site] (Some "1")) = Completed r
    /\ main Demo.world
         (with_state (Demo.env [Demo.trade; Demo.down; Demo.site] (Some "1")) (saved r))
       = Completed r2
    /\ digest r2 = [].
Proof.
  eexists.
  destruct (second_run_empty Demo.world
              (Demo.env [Demo.trade; Demo.down; Demo.site] (Some "1")) _
              eq_refl ltac:(vm_compute; reflexivity))
    as [_ (r2 & H2 & Hd & _)].
  exists r2. split; [vm_compute; reflexivity|]. split; assumption.
Defined.

(** C10. The saved seen set is the loaded one, to which a marking run adds
    the identifiers of the records of its digest and nothing else; items
    skipped as seen or as below the threshold add nothing. *)
Theorem seen_grows_by_digest (w : world) (e : env) (r : report) :
  main w e = Completed r ->
  exists seen0,
    load_seen (state_seen e) = Returned seen0
    /\ load_seen (saved r)
       = Returned (if mark_seen_of e then seen0 ∪ ids (digest r) else seen0).
Proof.
  intros H.
  apply main_completed in H as (sources & seen0 & st & Hsrc & Hseen & Hrun & ->).
  exists seen0. split; [assumption|]. cbn [saved digest].
  rewrite load_save, (run_sources_marks _ _ _ _ _ _ Hrun).
  destruct (mark_seen_of e); [|reflexivity].
  unfold ids.
  now rewrite (list_to_set_perm_L _ _
                 (Permutation_map id (sort_items_perm (all_items (st_core st))))).
Qed.

Lemma seen_grows_by_digest_witness :
  exists r seen0,
    main Demo.world (Demo.env [Demo.trade; Demo.down; Demo.site] (Some "1")) = Completed r
    /\ load_seen Missing = Returned seen0
    /\ load_seen (saved r) = Returned (seen0 ∪ ids (digest r)).
Proof.
  eexists.
  destruct (seen_grows_by_digest Demo.world
              (Demo.env [Demo.trade; Demo.down; Demo.site] (Some "1")) _
              ltac:(vm_compute; reflexivity))
    as (seen0 & H0 & H1).
  exists seen0. split; [vm_compute; reflexivity|]. split; [exact H0 | exact H1].
Defined.



(** C8, as amended. A missing state_seen.json reads as the empty set; a
    stored list reads as the set of its strings; when reading the stored
    record raises, [load_seen] raises and the run stops before any source is
    visited. *)
Theorem load_seen_cases (w : world) (sources : list source_cfg)
    (m : option float) (k : option string) (l : list string) (d : string) :
  load_seen Missing = Returned ∅
  /\ load_seen (Stored (Returned l)) = Returned (list_to_set l)
  /\ load_seen (Stored (Raised d)) = Raised d
  /\ main w (Env (Returned sources) Missing m k)
     = main w (Env (Returned sources) (Stored (Returned [])) m k)
  /\ main w (Env (Returned sources) (Stored (Raised d)) m k) = Aborted d [].
Proof. repeat split. Qed.

(** C8 as stated fails: a state_seen.json that is not JSON makes the run
    stop. *)
Lemma unreadable_state_aborts :
  load_seen (Stored (Raised "Expecting value: line 1 column 1 (char 0)"))
  <> Returned ∅
  /\ main Demo.world
       (Env (Returned [Demo.trade])
            (Stored (Raised "Expecting value: line 1 column 1 (char 0)")) None None)
     = Aborted "Expecting value: line 1 column 1 (char 0)" [].
Proof. split; [discriminate | reflexivity]. Qed.

(** A source without a location: the adapter raises the KeyError of
    [s["url"]] and asks for nothing. *)
Lemma adapter_unlocated (w : world) (s : source_cfg) :
  location s = [] -> adapter w s = Raised "'url'".
Proof.
  unfold location, adapter. destruct (rss_of s); [discriminate|].
  destruct (s_url s); [discriminate | reflexivity].
Qed.

(** When a source stops the run, its own location has been asked for. *)
Lemma visit_aborted (w : world) ms mk st s d log :
  visit w ms mk st s = inr (d, log) -> log = fetched st ++ location s.
Proof.
  unfold visit. destruct (adapter w s) as [items|d0].
  - destruct (process_items _ _ _ _ _); [discriminate|]. now intros [= _ <-].
  - destruct (s_name s); [discriminate|]. now intros [= _ <-].
Qed.

(** A run that stops does so at one source, after the loop has gone through
    the sources ahead of it. *)
Lemma run_sources_aborted (w : world) ms mk sources : forall st d log,
  run_sources w ms mk st sources = inr (d, log) ->
  exists pre s rest st1,
    sources = pre ++ s :: rest
    /\ run_sources w ms mk st pre = inl st1
    /\ visit w ms mk st1 s = inr (d, log).
Proof.
  induction sources as [|s sources IH]; cbn [run_sources]; intros st d log H;
    [discriminate|].
  destruct (visit w ms mk st s) as [st'|x] eqn:E.
  - apply IH in H as (pre & s' & rest & st1 & -> & Hpre & Hv).
    exists (s :: pre), s', rest, st1. cbn [run_sources app]. rewrite E. auto.
  - injection H as ->. exists [], s, sources, st. auto.
Qed.

(** The loop gets past a source without a location only if it has a name. *)
Lemma run_sources_named (w : world) ms mk pre : forall st st1,
  run_sources w ms mk st pre = inl st1 ->
  Forall (fun p => location p = [] -> is_Some (s_name p)) pre.
Proof.
  induction pre as [|p pre IH]; cbn [run_sources]; intros st st1 H; [constructor|].
  destruct (visit w ms mk st p) as [st'|x] eqn:E; [|discriminate].
  constructor; [|eauto].
  intros Hl. unfold visit in E. rewrite (adapter_unlocated w p Hl) in E.
  destruct (s_name p); [eauto | discriminate].
Qed.

Lemma flat_map_nil {A B} (f : A -> list B) (l : list A) :
  flat_map f l = [] -> Forall (fun x => f x = []) l.
Proof.
  induction l as [|x l IH]; cbn [flat_map]; intros H; [constructor|].
  apply app_eq_nil in H as [Hx Hl]. constructor; auto.
Qed.

Lemma unfetched_abort (w : world) ms mk sources st d :
  fetched st = [] ->
  run_sources w ms mk st sources = inr (d, []) ->
  stops_unfetched sources /\ d = "'name'".
Proof.
  intros Hf H.
  apply run_sources_aborted in H as (pre & s & rest & st1 & -> & Hpre & Hv).
  pose proof (run_sources_named w ms mk pre st st1 Hpre) as Hnamed.
  apply run_sources_logs in Hpre as [_ Hlog]. rewrite Hf in Hlog.
  pose proof (visit_aborted w ms mk st1 s d [] Hv) as Hl.
  symmetry in Hl. apply app_eq_nil in Hl as [Hl1 Hl2].
  rewrite Hl1 in Hlog. symmetry in Hlog. apply flat_map_nil in Hlog.
  unfold visit in Hv. rewrite (adapter_unlocated w s Hl2) in Hv.
  destruct (s_name s) eqn:En; [discriminate|]. injection Hv as <-.
  split; [|reflexivity]. exists pre, s, rest. repeat split; try assumption.
  clear -Hnamed Hlog. induction pre as [|p pre IH]; [constructor|].
  inversion Hnamed; inversion Hlog; subst. constructor; auto.
Qed.

Lemma unfetched_stop (w : world) ms mk pre s rest : forall st,
  fetched st = [] ->
  Forall (fun p => location p = [] /\ is_Some (s_name p)) pre ->
  location s = [] -> s_name s = None ->
  run_sources w ms mk st (pre ++ s :: rest) = inr ("'name'", []).
Proof.
  induction pre as [|p pre IH]; intros st Hf Hpre Hl Hn.
  - cbn [app run_sources]. unfold visit.
    now rewrite (adapter_unlocated w s Hl), Hn, Hf, Hl.
  - inversion Hpre as [|? ? [Hpl [name Hpn]] Hrest]; subst.
    cbn [app run_sources].
    rewrite (visit_failure w ms mk st p "'url'" name (adapter_unlocated w p Hpl) Hpn).
    apply IH; try assumption. cbn [fetched]. now rewrite Hf, Hpl.
Qed.

(** C9, as amended. The source list is not validated. The run stops before
    any request in exactly three cases: reading the source list raises;
    reading state_seen.json raises; or the loop reaches a source with neither
    a name nor a location while the sources ahead of it have a name and no
    location (the KeyError of [s['name']] in the handler of line 228). An
    empty source list is accepted: when state_seen.json loads, the run
    completes with an empty digest, no failure and no request. A source with
    a name and no location, anywhere in the list, is recorded as the failure
    "name: 'url'" and the run ends as the run without that source does: the
    same digest, saved set and requests, and that one entry more. *)
Theorem source_list_cases (w : world) (e : env) :
  (forall d,
     main w e = Aborted d [] <->
     load_sources e = Raised d
     \/ exists sources,
          load_sources e = Returned sources
          /\ (load_seen (state_seen e) = Raised d
              \/ (exists seen0, load_seen (state_seen e) = Returned seen0)
                 /\ stops_unfetched sources /\ d = "'name'"))
  /\ (forall seen0,
        load_sources e = Returned [] ->
        load_seen (state_seen e) = Returned seen0 ->
        main w e = Completed (Report [] [] (save_seen seen0) []))
  /\ (forall l1 l2 s name r,
        load_sources e = Returned (l1 ++ s :: l2) ->
        s_name s = Some name -> location s = [] ->
        main w (with_sources e (l1 ++ l2)) = Completed r ->
        main w e
        = Completed
            (Report (digest r)
                    (flat_map (reported w) l1 ++ [name +:+ ": 'url'"]
                       ++ flat_map (reported w) l2)
                    (saved r) (requests r))).
Proof.
  split; [|split].
  - intros d. unfold main. split.
    + destruct (load_sources e) as [sources|d0]; [|intros [= ->]; now left].
      intros H. right. exists sources. split; [reflexivity|].
      destruct (load_seen (state_seen e)) as [seen0|d0]; [|injection H as ->; now left].
      right. split; [eauto|].
      destruct (run_sources _ _ _ _ _) as [st|[d0 log]] eqn:E; [discriminate|].
      injection H as -> ->.
      exact (unfetched_abort w _ _ sources (start seen0) d eq_refl E).
    + intros [->|(sources & -> & [->|([seen0 ->] & Hstop & ->)])]; try reflexivity.
      destruct Hstop as (pre & s & rest & -> & Hpre & Hl & Hn).
      change (State (Core [] seen0) [] []) with (start seen0).
      now rewrite (unfetched_stop w _ _ pre s rest (start seen0) eq_refl Hpre Hl Hn).
  - intros seen0 Hs Hseen. unfold main. now rewrite Hs, Hseen.
  - intros l1 l2 s name r Hsrc Hn Hl H.
    pose proof (adapter_unlocated w s Hl) as Ha.
    apply main_completed in H as (sources & seen0 & st & Hs & Hseen & Hrun & ->).
    injection Hs as <-. cbn [with_sources state_seen] in Hseen.
    change (min_score_of (with_sources e (l1 ++ l2))) with (min_score_of e) in Hrun.
    change (mark_seen_of (with_sources e (l1 ++ l2))) with (mark_seen_of e) in Hrun.
    destruct (run_sources_skip w _ _ l1 s l2 "'url'" name _ _ Ha Hn Hrun)
      as (st' & Hrun' & Hc).
    rewrite (main_of_run w e _ _ _ Hsrc Hseen Hrun').
    cbn [digest saved requests]. rewrite Hc.
    apply run_sources_logs in Hrun as [_ Hf], Hrun' as [He' Hf'].
    rewrite He', Hf', Hf. cbn [start errors fetched app].
    assert (reported w s = [name +:+ ": 'url'"]) as Hr
        by (unfold reported; now rewrite Ha, Hn).
    rewrite !flat_map_app. cbn [flat_map]. now rewrite Hr, Hl.
Qed.

Lemma source_list_cases_witness :
  main Demo.world (Demo.env [Demo.unlocated; Demo.anonymous; Demo.trade] None)
  = Aborted "'name'" []
  /\ exists r,
       main Demo.world (Demo.env [Demo.trade; Demo.site] None) = Completed r
       /\ main Demo.world (Demo.env [Demo.trade; Demo.unlocated; Demo.site] None)
          = Completed (Report (digest r) ["Unlocated: 'url'"] (saved r) (requests r)).
Proof.
  split.
  - apply (proj1 (source_list_cases Demo.world
                    (Demo.env [Demo.unlocated; Demo.anonymous; Demo.trade] None))).
    right. eexists. split; [reflexivity|]. right.
    split; [eexists; reflexivity|]. split; [|reflexivity].
    exists [Demo.unlocated], Demo.anonymous, [Demo.trade].
    repeat split. constructor; [|constructor].
    split; [reflexivity | eexists; reflexivity].
  - eexists.
    pose proof (proj2 (proj2 (source_list_cases Demo.world
                  (Demo.env [Demo.trade; Demo.unlocated; Demo.site] None)))
                  [Demo.trade] [Demo.site] Demo.unlocated "Unlocated" _
                  eq_refl eq_refl eq_refl ltac:(vm_compute; reflexivity)) as H.
    split; [vm_compute; reflexivity | exact H].
Defined.

(** C9 as stated fails: with an empty source list the run completes. *)
Lemma empty_source_list_completes :
  main Demo.world (Env (Returned []) Missing None None)
  = Completed (Report [] [] (Stored (Returned [])) []).
Proof. vm_compute. reflexivity. Qed.

(** ** parse_listing *)

Section Listing.

Variable w : world.
Variable page_url : string.

Lemma existsb_false_Forall {A} (p : A -> bool) (l : list A) :
  List.existsb p l = false -> Forall (fun x => p x = false) l.
Proof.
  induction l as [|x l IH]; simpl; intros H; [constructor|].
  apply orb_false_iff in H as [Hx Hl]. constructor; auto.
Qed.

Lemma listing_item_inv (a : anchor) (it : item) :
  listing_item w page_url a = Some it ->
  url it = full_url w page_url a
  /\ netloc w (url it) = netloc w page_url
  /\ Forall (fun b => Py.contains b (Py.lower (url it)) = false) bad.
Proof.
  unfold listing_item.
  destruct (_ <? _)%nat; [discriminate|].
  destruct (negb (Py.startswith _ _)); [discriminate|].
  destruct (String.eqb_spec (netloc w (full_url w page_url a)) (netloc w page_url))
    as [Hhost|]; [|discriminate]. cbn [negb].
  destruct (List.existsb _ bad) eqn:Hbad; [discriminate|].
  intros [= <-]. cbn [url].
  repeat split; [assumption|]. now apply existsb_false_Forall.
Qed.

Lemma found_inv (l : list anchor) (it : item) :
  it ∈ found w page_url l ->
  exists a, a ∈ l /\ listing_item w page_url a = Some it.
Proof.
  induction l as [|a l IH]; simpl; intros H; [inversion H|].
  destruct (listing_item w page_url a) as [it'|] eqn:E.
  - apply elem_of_cons in H as [->|H].
    + exists a. split; [left | assumption].
    + destruct (IH H) as (a' & ? & ?). exists a'. split; [now right | assumption].
  - destruct (IH H) as (a' & ? & ?). exists a'. split; [now right | assumption].
Qed.

Lemma dedup_subset (l : list item) : forall (S : gset string) (it : item),
  it ∈ dedup S l -> it ∈ l.
Proof.
  induction l as [|x l IH]; simpl; intros S it H; [assumption|].
  destruct (decide (url x ∈ S)).
  - right. eauto.
  - apply elem_of_cons in H as [->|H]; [left | right; eauto].
Qed.

Lemma listing_items_inv (l : list anchor) (it : item) :
  it ∈ listing_items w page_url l ->
  exists a, a ∈ l /\ listing_item w page_url a = Some it.
Proof.
  unfold listing_items. intros H.
  apply found_inv. eapply dedup_subset.
  eapply subseteq_take. exact H.
Qed.

End Listing.

(** C6. Every item that the listing adapter returns has the host of the
    listing page and a URL that, in lower case, contains no word of the
    denylist; a link whose host differs is rejected, and no returned item has
    its URL. *)
Theorem listing_stays_on_site (w : world) (page_url : string) (items : list item) :
  parse_listing w page_url = Returned items ->
  (forall it, it ∈ items ->
     netloc w (url it) = netloc w page_url
     /\ Forall (fun b => Py.contains b (Py.lower (url it)) = false) bad)
  /\ (forall a, netloc w (full_url w page_url a) <> netloc w page_url ->
        listing_item w page_url a = None
        /\ forall it, it ∈ items -> url it <> full_url w page_url a).
Proof.
  unfold parse_listing. destruct (page w page_url) as [l|d]; [|discriminate].
  intros [= <-].
  assert (forall it, it ∈ listing_items w page_url l ->
            netloc w (url it) = netloc w page_url
            /\ Forall (fun b => Py.contains b (Py.lower (url it)) = false) bad) as Hall.
  { intros it Hit. apply listing_items_inv in Hit as (a & _ & Ha).
    now apply listing_item_inv in Ha as (_ & ? & ?). }
  split; [exact Hall|].
  intros a Hhost. split.
  - destruct (listing_item w page_url a) as [it|] eqn:E; [|reflexivity].
    apply listing_item_inv in E as (Hu & Hn & _). rewrite Hu in Hn. contradiction.
  - intros it Hit Hu. apply Hall in Hit as [Hn _]. rewrite Hu in Hn. contradiction.
Qed.

Lemma listing_stays_on_site_witness :
  exists items,
    parse_listing Demo.world "https://example.com/news" = Returned items
    /\ (forall it, it ∈ items ->
          netloc Demo.world (url it) = "example.com"
          /\ Forall (fun b => Py.contains b (Py.lower (url it)) = false) bad)
    /\ listing_item Demo.world "https://example.com/news" Demo.outbound = None.
Proof.
  eexists. split; [vm_compute; reflexivity|].
  destruct (listing_stays_on_site Demo.world "https://example.com/news" _
              ltac:(vm_compute; reflexivity)) as [Hall Hout].
  split; [exact Hall|].
  apply (Hout Demo.outbound). vm_compute. discriminate.
Defined.

(** The link to other.com and the link to the About page are dropped. *)
Example listing_keeps_the_article :
  parse_listing Demo.world "https://example.com/news"
  = Returned [Item "Oscars shortlist: the nominees and the nominations"
                   "https://example.com/2025/oscars-shortlist" "" ""].
Proof. vm_compute. reflexivity. Qed.

(** Text that holds negative hints only scores 0.0. *)
Example negative_hints_score_zero :
  score_item "First Look: New Trailer Poster Revealed" = (0%float, []).
Proof. vm_compute. reflexivity. Qed.

(** * Further properties

    ** html_escape *)

Section HtmlEscape.

Lemma replace_char_other (c d : ascii) (r s : string) :
  Ascii.eqb c d = false ->
  Py.replace_char c r (String d s) = String d (Py.replace_char c r s).
Proof. intros H. cbn [Py.replace_char]. now rewrite H. Qed.

(** The three replacements amount to one pass over the characters. *)
Lemma html_escape_cons (c : ascii) (s : string) :
  html_escape (String c s) = escaped c +:+ html_escape s.
Proof.
  unfold html_escape, escaped. cbn [Py.replace_char].
  rewrite (Ascii.eqb_sym c "&"), (Ascii.eqb_sym c "<"), (Ascii.eqb_sym c ">").
  destruct (Ascii.eqb_spec "&"%char c) as [<-|Hamp]; [reflexivity|].
  cbn [Py.replace_char].
  destruct (Ascii.eqb_spec "<"%char c) as [<-|Hlt]; [reflexivity|].
  cbn [Py.replace_char].
  destruct (Ascii.eqb_spec ">"%char c) as [<-|Hgt]; reflexivity.
Qed.

Lemma contains_char_cons (c d : ascii) (s : string) :
  Py.contains (String c EmptyString) (String d s)
  = Ascii.eqb c d || Py.contains (String c EmptyString) s.
Proof.
  cbn [Py.contains Py.startswith].
  destruct (Ascii.eqb c d); [reflexivity|]. cbn [andb orb]. reflexivity.
Qed.

Lemma append_cons (c : ascii) (s t : string) :
  String c s +:+ t = String c (s +:+ t).
Proof. reflexivity. Qed.

Lemma append_nil (t : string) : "" +:+ t = t.
Proof. reflexivity. Qed.

Lemma escaped_inj_head (c d : ascii) (a b : string) :
  escaped c +:+ a = escaped d +:+ b -> c = d /\ a = b.
Proof.
  unfold escaped.
  destruct (Ascii.eqb_spec c "&") as [->|Hc1]; [|
  destruct (Ascii.eqb_spec c "<") as [->|Hc2]; [|
  destruct (Ascii.eqb_spec c ">") as [->|Hc3]]];
  (destruct (Ascii.eqb_spec d "&") as [->|Hd1]; [|
   destruct (Ascii.eqb_spec d "<") as [->|Hd2]; [|
   destruct (Ascii.eqb_spec d ">") as [->|Hd3]]]);
  intros H; rewrite ?append_cons, ?append_nil in H; try discriminate H;
  injection H; intros; subst; try (exfalso; congruence); split; reflexivity.
Qed.

End HtmlEscape.

(** X1. The escaped text holds no [<] and no [>]. *)
Theorem html_escape_no_markup (s : string) :
  Py.contains "<" (html_escape s) = false
  /\ Py.contains ">" (html_escape s) = false.
Proof.
  induction s as [|c s [IHlt IHgt]]; [split; reflexivity|].
  rewrite html_escape_cons. unfold escaped.
  destruct (Ascii.eqb_spec c "&") as [->|H1]; [cbn; auto|].
  destruct (Ascii.eqb_spec c "<") as [->|H2]; [cbn; auto|].
  destruct (Ascii.eqb_spec c ">") as [->|H3]; [cbn; auto|].
  change (String c "" +:+ html_escape s) with (String c (html_escape s)).
  rewrite !contains_char_cons, IHlt, IHgt.
  rewrite (proj2 (Ascii.eqb_neq "<" c)), (proj2 (Ascii.eqb_neq ">" c)) by congruence.
  split; reflexivity.
Qed.

(** X2. Escaping loses nothing: different texts have different escaped
    forms. *)
Theorem html_escape_injective (a b : string) :
  html_escape a = html_escape b -> a = b.
Proof.
  revert b. induction a as [|c a IH]; intros [|d b] H.
  - reflexivity.
  - rewrite html_escape_cons in H. exfalso. revert H. unfold escaped.
    destruct (Ascii.eqb d "&"); [discriminate|].
    destruct (Ascii.eqb d "<"); [discriminate|].
    destruct (Ascii.eqb d ">"); discriminate.
  - rewrite html_escape_cons in H. exfalso. revert H. unfold escaped.
    destruct (Ascii.eqb c "&"); [discriminate|].
    destruct (Ascii.eqb c "<"); [discriminate|].
    destruct (Ascii.eqb c ">"); discriminate.
  - rewrite !html_escape_cons in H.
    apply escaped_inj_head in H as [-> H]. f_equal. now apply IH.
Qed.

Lemma html_escape_injective_witness : "a<b" = "a<b".
Proof. apply html_escape_injective. reflexivity. Defined.

(** ** stable_id *)

Section StableId.

Lemma compress_length (h block : list Z) :
  List.length (Sha256.compress h block) = 8%nat.
Proof. reflexivity. Qed.

Lemma fold_compress_length (bl : list (list Z)) : forall h,
  List.length h = 8%nat ->
  List.length (List.fold_left Sha256.compress bl h) = 8%nat.
Proof.
  induction bl as [|b bl IH]; intros h Hh; [assumption|].
  cbn [List.fold_left]. apply IH, compress_length.
Qed.

Lemma be_bytes_range (n : nat) (x : Z) :
  Forall (fun b => 0 <= b < 256) (Sha256.be_bytes n x).
Proof.
  unfold Sha256.be_bytes. apply Forall_forall. intros b Hb.
  apply list_elem_of_In, in_map_iff in Hb as (i & <- & _).
  apply Z.mod_pos_bound. lia.
Qed.

Lemma digest_bytes (msg : list Z) :
  List.length (Sha256.digest msg) = 32%nat
  /\ Forall (fun b => 0 <= b < 256) (Sha256.digest msg).
Proof.
  unfold Sha256.digest.
  set (h := List.fold_left Sha256.compress _ Sha256.H0).
  assert (List.length h = 8%nat) as Hh
      by (apply fold_compress_length; reflexivity).
  split.
  - destruct h as [|a [|b [|c [|d [|e [|f [|g [|i [|]]]]]]]]]; try discriminate Hh.
    reflexivity.
  - apply Forall_concat, Forall_forall. intros l Hl.
    apply list_elem_of_In, in_map_iff in Hl as (x & <- & _).
    apply be_bytes_range.
Qed.

Lemma hex_digit_is_hex (n : Z) : 0 <= n < 16 -> is_hex (Sha256.hex_digit n) = true.
Proof.
  intros H. rewrite <- (Z2Nat.id n) by lia.
  assert (Z.to_nat n < 16)%nat as Hk by lia.
  revert Hk. generalize (Z.to_nat n) as k. intros k Hk.
  do 16 (destruct k as [|k]; [reflexivity|]). lia.
Qed.

Lemma hex_chars (bs : list Z) :
  Forall (fun b => 0 <= b < 256) bs ->
  String.length (Sha256.hex bs) = (2 * List.length bs)%nat
  /\ all_chars is_hex (Sha256.hex bs) = true.
Proof.
  induction 1 as [|b bs Hb _ [IHl IHc]]; [split; reflexivity|].
  cbn [Sha256.hex String.length List.length all_chars].
  rewrite IHl, IHc, !hex_digit_is_hex.
  - split; [lia | reflexivity].
  - apply Z.mod_pos_bound. lia.
  - split; [apply Z.div_pos; lia | apply Z.div_lt_upper_bound; lia].
Qed.

Lemma prefix_chars (p : ascii -> bool) (n : nat) : forall s,
  (n <= String.length s)%nat -> all_chars p s = true ->
  String.length (Py.prefix n s) = n /\ all_chars p (Py.prefix n s) = true.
Proof.
  induction n as [|n IH]; intros [|c s] Hlen Hall; cbn in *;
    try (split; reflexivity); try lia.
  apply andb_true_iff in Hall as [Hc Hs].
  destruct (IH s) as [Hl Ha]; [lia | assumption |].
  rewrite Hl, Hc, Ha. split; reflexivity.
Qed.

Lemma lstrip_head (s : string) :
  Py.lstrip s = EmptyString
  \/ exists c t, Py.lstrip s = String c t /\ Py.isspace c = false.
Proof.
  induction s as [|c s IH]; [now left|].
  cbn [Py.lstrip]. destruct (Py.isspace c) eqn:E; [assumption|].
  right. eauto.
Qed.

Lemma rstrip_idem (s : string) : Py.rstrip (Py.rstrip s) = Py.rstrip s.
Proof.
  induction s as [|c s IH]; [reflexivity|].
  cbn [Py.rstrip]. destruct (Py.rstrip s) as [|d r] eqn:E.
  - destruct (Py.isspace c) eqn:Ec; [reflexivity|].
    cbn [Py.rstrip]. now rewrite Ec.
  - change (Py.rstrip (String c (String d r)))
      with (match Py.rstrip (String d r) with
            | EmptyString => if Py.isspace c then EmptyString else String c EmptyString
            | x => String c x
            end).
    now rewrite IH.
Qed.

Lemma rstrip_head (c : ascii) (s : string) :
  Py.isspace c = false -> exists r, Py.rstrip (String c s) = String c r.
Proof.
  intros Hc. cbn [Py.rstrip]. destruct (Py.rstrip s); [rewrite Hc|]; eauto.
Qed.

(** Trimming twice is trimming once. *)
Lemma strip_idem (s : string) : Py.strip (Py.strip s) = Py.strip s.
Proof.
  unfold Py.strip.
  destruct (lstrip_head s) as [->|(c & t & -> & Hc)]; [reflexivity|].
  destruct (rstrip_head c t Hc) as [r Hr].
  rewrite Hr at 1. cbn [Py.lstrip]. rewrite Hc, <- Hr. apply rstrip_idem.
Qed.

End StableId.

(** X3. The identifier is always 24 lower-case hexadecimal digits. *)
Theorem stable_id_shape (url title : string) :
  String.length (stable_id url title) = 24%nat
  /\ all_chars is_hex (stable_id url title) = true.
Proof.
  unfold stable_id, Sha256.hexdigest.
  destruct (digest_bytes (hashed url title)) as [Hlen Hrange].
  destruct (hex_chars _ Hrange) as [Hl Hc].
  apply prefix_chars; [|assumption]. rewrite Hl, Hlen. lia.
Qed.

(** X4. The identifier of an item whose title and url are already trimmed,
    as [parse_rss] builds them, is the identifier of the untrimmed pair. *)
Theorem stable_id_of_trimmed (url title : string) :
  stable_id (Py.strip url) (Py.strip title) = stable_id url title.
Proof. unfold stable_id, hashed, id_key. now rewrite !strip_idem. Qed.

(** ** score_item *)

Section ScoreMore.

Lemma lower_char_idem (c : ascii) :
  Py.lower_char (Py.lower_char c) = Py.lower_char c.
Proof.
  destruct c as [[] [] [] [] [] [] [] []]; vm_compute; reflexivity.
Qed.

Lemma lower_idem (s : string) : Py.lower (Py.lower s) = Py.lower s.
Proof.
  induction s as [|c s IH]; [reflexivity|].
  cbn [Py.lower]. now rewrite lower_char_idem, IH.
Qed.

Lemma fold_none {A} (f : A -> string -> A) (p : string -> bool) (l : list string) :
  (forall acc kw, p kw = false -> f acc kw = acc) ->
  Forall (fun kw => p kw = false) l ->
  forall acc, List.fold_left f l acc = acc.
Proof.
  intros Hf. induction 1 as [|kw l Hkw _ IH]; intros acc; [reflexivity|].
  cbn [List.fold_left]. now rewrite Hf, IH.
Qed.

Lemma filter_none {A} (p : A -> bool) (l : list A) :
  Forall (fun x => p x = false) l -> List.filter p l = [].
Proof.
  induction 1 as [|x l Hx _ IH]; [reflexivity|].
  cbn [List.filter]. now rewrite Hx.
Qed.

(** Whatever negative hints occur, a text without points stays at 0.0. *)
Lemma negative_pass_zero (t : string) : clamp (negative_pass t 0) = 0%float.
Proof.
  unfold negative_pass, NEGATIVE_HINTS. cbn [List.fold_left].
  destruct (Py.contains "trailer" t), (Py.contains "teaser" t),
    (Py.contains "box office" t), (Py.contains "first look" t),
    (Py.contains "poster" t); vm_compute; reflexivity.
Qed.

End ScoreMore.

(** X5. Scoring ignores case: a text and its lower-case form get the same
    score and the same signals. *)
Theorem score_item_ignores_case (text : string) :
  score_item (Py.lower text) = score_item text.
Proof. unfold score_item. now rewrite lower_idem. Qed.

(** X6. A text in which no award term and no strong term occurs scores
    exactly 0.0 with no signal, whatever negative hints it holds: the
    penalties never take the score below zero. *)
Theorem score_item_without_terms (text : string) :
  List.existsb (fun kw => Py.contains kw (Py.lower text)) (AWARD_TERMS ++ strong)
  = false ->
  score_item text = (0%float, []).
Proof.
  intros H. apply existsb_false_Forall, Forall_app in H as [Ha Hs].
  rewrite score_item_eq. f_equal.
  - assert (fst (award_pass (Py.lower text)) = 0%float) as ->.
    { unfold award_pass. rewrite fold_none with (p := fun kw => Py.contains kw (Py.lower text));
        [reflexivity | | assumption].
      intros [sc h] kw Hkw. now rewrite Hkw. }
    assert (strong_pass (Py.lower text) 0 = 0%float) as ->.
    { unfold strong_pass. apply fold_none with (p := fun kw => Py.contains kw (Py.lower text));
        [|assumption].
      intros acc kw Hkw. now rewrite Hkw. }
    apply negative_pass_zero.
  - now rewrite filter_none.
Qed.

Lemma score_item_without_terms_witness :
  score_item "First Look: New Trailer! Poster, teaser and box office"
  = (0%float, []).
Proof. apply score_item_without_terms. vm_compute. reflexivity. Defined.

(** ** Timestamps written by parse_rss *)

Section IsoRoundTrip.

Lemma small_cases (k : Z) :
  0 <= k < 10 ->
  k = 0 \/ k = 1 \/ k = 2 \/ k = 3 \/ k = 4 \/ k = 5 \/ k = 6 \/ k = 7
  \/ k = 8 \/ k = 9.
Proof. lia. Qed.

Lemma digit_chr (k : Z) :
  0 <= k < 10 ->
  Iso.digit (Py.chr (48 + k)) = Some k
  /\ Ascii.eqb "Z" (Py.chr (48 + k)) = false.
Proof.
  intros H. apply small_cases in H.
  repeat (destruct H as [->|H]; [split; reflexivity|]). subst. split; reflexivity.
Qed.

Lemma number_digits (n : nat) : forall (z a : Z) (rest : string) (m : nat),
  0 <= z < 10 ^ Z.of_nat n ->
  Iso.number (n + m) a (Iso.digits n z rest)
  = Iso.number m (a * 10 ^ Z.of_nat n + z) rest.
Proof.
  induction n as [|n IH]; intros z a rest m Hz.
  - cbn [Iso.digits Nat.add]. f_equal. cbn in Hz. cbn. lia.
  - cbn [Iso.digits]. rewrite Nat.add_succ_comm.
    assert (0 <= z mod 10 < 10) as Hd by (apply Z.mod_pos_bound; lia).
    rewrite Nat2Z.inj_succ, Z.pow_succ_r in Hz by lia.
    rewrite IH.
    + cbn [Iso.number]. rewrite (proj1 (digit_chr _ Hd)). f_equal.
      rewrite Nat2Z.inj_succ, Z.pow_succ_r by lia.
      pose proof (Z.div_mod z 10). lia.
    + split; [apply Z.div_pos; lia | apply Z.div_lt_upper_bound; lia].
Qed.

Lemma number_digits_all (n : nat) (z : Z) (rest : string) :
  0 <= z < 10 ^ Z.of_nat n ->
  Iso.number n 0 (Iso.digits n z rest) = Some (z, rest).
Proof.
  intros Hz. rewrite <- (Nat.add_0_r n) at 1.
  rewrite number_digits by assumption. cbn [Iso.number]. f_equal.
Qed.

Lemma replace_digits (r : string) (n : nat) : forall (z : Z) (rest : string),
  Py.replace_char "Z" r (Iso.digits n z rest)
  = Iso.digits n z (Py.replace_char "Z" r rest).
Proof.
  induction n as [|n IH]; intros z rest; [reflexivity|].
  cbn [Iso.digits]. rewrite IH. f_equal.
  apply replace_char_other, digit_chr, Z.mod_pos_bound. lia.
Qed.

(** A string that [isoformat] writes holds no Z. *)
Lemma replace_isoformat (d : datetime) :
  Py.replace_char "Z" "+00:00" (Iso.isoformat d) = Iso.isoformat d.
Proof.
  unfold Iso.isoformat.
  repeat (rewrite replace_digits; rewrite ?append_cons, ?append_nil;
          rewrite replace_char_other by reflexivity).
  reflexivity.
Qed.

Lemma days_in_month_le (y m : Z) : days_in_month y m <= 31.
Proof.
  unfold days_in_month.
  destruct (m =? 2); [destruct (is_leap y); lia|].
  destruct (_ || _); lia.
Qed.

Lemma fromisoformat_isoformat (d : datetime) :
  dt_valid d = true -> Iso.fromisoformat (Iso.isoformat d) = Some d.
Proof.
  intros Hv. pose proof Hv as Hb. unfold dt_valid in Hb.
  repeat (apply andb_true_iff in Hb as [Hb ?]).
  repeat match goal with H : (_ <=? _) = true |- _ => apply Z.leb_le in H end.
  pose proof (days_in_month_le (year d) (month d)).
  unfold Iso.fromisoformat, Iso.isoformat.
  rewrite ?append_cons, ?append_nil.
  rewrite number_digits_all by (cbn; lia). cbn [Iso.expect Ascii.eqb Bool.eqb].
  rewrite number_digits_all by (cbn; lia). cbn [Iso.expect Ascii.eqb Bool.eqb].
  rewrite number_digits_all by (cbn; lia). cbn [Iso.expect Ascii.eqb Bool.eqb].
  rewrite number_digits_all by (cbn; lia). cbn [Iso.expect Ascii.eqb Bool.eqb].
  rewrite number_digits_all by (cbn; lia). cbn [Iso.expect Ascii.eqb Bool.eqb].
  rewrite number_digits_all by (cbn; lia). cbn [Iso.expect Ascii.eqb Bool.eqb].
  destruct d as [y mo da h mi se]. cbn [year month day hour minute second] in *.
  now rewrite Hv.
Qed.

End IsoRoundTrip.

(** X7. The timestamp that [parse_rss] writes for a date is read back by
    [pub_key] as that date. *)
Theorem pub_key_isoformat (d : datetime) :
  dt_valid d = true ->
  Iso.fromisoformat (Iso.isoformat d) = Some d
  /\ pub_key (Iso.isoformat d) = d.
Proof.
  intros Hv. split; [now apply fromisoformat_isoformat|].
  unfold pub_key. now rewrite replace_isoformat, fromisoformat_isoformat.
Qed.

Lemma pub_key_isoformat_witness :
  Iso.fromisoformat (Iso.isoformat (Datetime 2024 2 29 23 59 59))
  = Some (Datetime 2024 2 29 23 59 59)
  /\ pub_key (Iso.isoformat (Datetime 2024 2 29 23 59 59))
     = Datetime 2024 2 29 23 59 59.
Proof. apply pub_key_isoformat. reflexivity. Defined.

(** ** parse_rss *)

Section ParseRss.

Lemma nonempty_true (s : string) : nonempty s = true -> s <> EmptyString.
Proof. destruct s; [discriminate | discriminate]. Qed.

Lemma rss_item_inv (e : entry) (it : item) :
  rss_item e = Some it ->
  title it = Py.strip (e_title e) /\ url it = Py.strip (e_link e)
  /\ summary it = e_summary e
  /\ title it <> EmptyString /\ url it <> EmptyString
  /\ published it
     = match e_published e with
       | Some d => Iso.isoformat d
       | None => EmptyString
       end.
Proof.
  unfold rss_item.
  destruct (nonempty (Py.strip (e_title e))) eqn:Ht; [|discriminate].
  destruct (nonempty (Py.strip (e_link e))) eqn:Hl; [|discriminate].
  cbn [andb]. intros [= <-]. cbn [title url summary published].
  repeat split; auto using nonempty_true.
Qed.

Lemma rss_items_inv (es : list entry) (it : item) :
  it ∈ rss_items es -> exists e, e ∈ es /\ rss_item e = Some it.
Proof.
  induction es as [|e es IH]; cbn [rss_items]; intros H; [inversion H|].
  destruct (rss_item e) as [it'|] eqn:E.
  - apply elem_of_cons in H as [->|H].
    + exists e. split; [left | assumption].
    + destruct (IH H) as (e' & ? & ?). exists e'. split; [now right | assumption].
  - destruct (IH H) as (e' & ? & ?). exists e'. split; [now right | assumption].
Qed.

Lemma rss_items_length (es : list entry) :
  (List.length (rss_items es) <= List.length es)%nat.
Proof.
  induction es as [|e es IH]; cbn [rss_items List.length]; [lia|].
  destruct (rss_item e); cbn [List.length]; lia.
Qed.

End ParseRss.

(** X8. The feed adapter returns at most 40 items, taken from the first 40
    entries of the feed; each has a title and a url that are trimmed and not
    empty, the summary of its entry, and a timestamp that is empty or the ISO
    form of the entry's date. *)
Theorem parse_rss_items (w : world) (rss_url : string) (items : list item) :
  parse_rss w rss_url = Returned items ->
  (List.length items <= 40)%nat
  /\ forall it, it ∈ items ->
       title it <> EmptyString /\ url it <> EmptyString
       /\ Py.strip (title it) = title it /\ Py.strip (url it) = url it
       /\ exists es e,
            feed w rss_url = Returned es /\ e ∈ take 40 es
            /\ title it = Py.strip (e_title e) /\ url it = Py.strip (e_link e)
            /\ summary it = e_summary e
            /\ published it
               = match e_published e with
                 | Some d => Iso.isoformat d
                 | None => EmptyString
                 end.
Proof.
  unfold parse_rss. destruct (feed w rss_url) as [es|d]; [|discriminate].
  intros [= <-]. split.
  - etransitivity; [apply rss_items_length|]. apply firstn_le_length.
  - intros it Hit. apply rss_items_inv in Hit as (e & He & Hitem).
    apply rss_item_inv in Hitem as (Ht & Hu & Hs & Hnt & Hnu & Hp).
    split; [assumption|]. split; [assumption|].
    split; [rewrite Ht; apply strip_idem|].
    split; [rewrite Hu; apply strip_idem|].
    exists es, e. auto 10.
Qed.

Lemma parse_rss_items_witness :
  exists items,
    parse_rss Demo.world "https://trade.example/feed" = Returned items
    /\ (List.length items <= 40)%nat.
Proof.
  eexists. split; [vm_compute; reflexivity|].
  apply (parse_rss_items Demo.world "https://trade.example/feed").
  vm_compute. reflexivity.
Defined.

(** ** parse_listing, continued *)

Section ListingMore.

Variable w : world.
Variable page_url : string.

Lemma listing_item_shape (a : anchor) (it : item) :
  listing_item w page_url a = Some it ->
  title it = squeeze (a_text a)
  /\ (18 <= String.length (title it))%nat
  /\ Py.startswith "http" (url it) = true
  /\ published it = EmptyString.
Proof.
  unfold listing_item.
  destruct (Nat.ltb_spec (String.length (squeeze (a_text a))) 18); [discriminate|].
  destruct (Py.startswith "http" (full_url w page_url a)) eqn:Hh; [|discriminate].
  cbn [negb].
  destruct (negb _); [discriminate|].
  destruct (List.existsb _ bad); [discriminate|].
  intros [= <-]. cbn [title url published]. auto.
Qed.

Lemma dedup_distinct (l : list item) : forall (S : gset string),
  NoDup (List.map url (dedup S l))
  /\ forall it, it ∈ dedup S l -> url it ∉ S.
Proof.
  induction l as [|x l IH]; intros S; cbn [dedup].
  - split; [constructor | intros it H; inversion H].
  - destruct (decide (url x ∈ S)) as [Hin|Hout]; [apply IH|].
    destruct (IH ({[url x]} ∪ S)) as [Hnd Hfresh].
    split.
    + cbn [List.map]. constructor; [|assumption].
      intros Hx. apply list_elem_of_fmap in Hx as (it & Hu & Hit).
      apply Hfresh in Hit. rewrite <- Hu in Hit. set_solver.
    + intros it Hit. apply elem_of_cons in Hit as [->|Hit]; [assumption|].
      apply Hfresh in Hit. set_solver.
Qed.

End ListingMore.

(** X9. The listing adapter returns at most 50 items with pairwise
    different urls; each title has at least 18 characters, each url starts
    with http and no item carries a timestamp. *)
Theorem parse_listing_items (w : world) (page_url : string) (items : list item) :
  parse_listing w page_url = Returned items ->
  (List.length items <= 50)%nat
  /\ NoDup (List.map url items)
  /\ forall it, it ∈ items ->
       (18 <= String.length (title it))%nat
       /\ Py.startswith "http" (url it) = true
       /\ published it = EmptyString.
Proof.
  unfold parse_listing. destruct (page w page_url) as [l|d]; [|discriminate].
  intros [= <-]. split; [apply firstn_le_length|]. split.
  - unfold listing_items. rewrite <- firstn_map.
    eapply sublist_NoDup; [apply dedup_distinct | apply sublist_take].
  - intros it Hit. apply listing_items_inv in Hit as (a & _ & Ha).
    now apply listing_item_shape in Ha as (_ & ? & ? & ?).
Qed.

Lemma parse_listing_items_witness :
  exists items,
    parse_listing Demo.world "https://example.com/news" = Returned items
    /\ NoDup (List.map url items).
Proof.
  eexists. split; [vm_compute; reflexivity|].
  apply (parse_listing_items Demo.world "https://example.com/news").
  vm_compute. reflexivity.
Defined.

(** ** save_seen and load_seen *)

Section SaveSeen.

Lemma str_compare_refl (a : string) : String.compare a a = Eq.
Proof.
  induction a as [|c a IH]; [reflexivity|]. cbn [String.compare].
  unfold Ascii.compare. now rewrite N.compare_refl.
Qed.

Lemma str_compare_lt_trans (a : string) : forall b c,
  String.compare a b = Lt -> String.compare b c = Lt -> String.compare a c = Lt.
Proof.
  induction a as [|x a IH]; intros [|y b] [|z c]; cbn [String.compare];
    try congruence.
  unfold Ascii.compare.
  destruct (N.compare_spec (N_of_ascii x) (N_of_ascii y)),
           (N.compare_spec (N_of_ascii y) (N_of_ascii z)),
           (N.compare_spec (N_of_ascii x) (N_of_ascii z));
    try congruence; try lia; eauto.
Qed.

Lemma str_lt_trans (a b c : string) : str_lt a b -> str_lt b c -> str_lt a c.
Proof.
  unfold str_lt, String.ltb. intros Hab Hbc.
  destruct (String.compare a b) eqn:E1; try discriminate.
  destruct (String.compare b c) eqn:E2; try discriminate.
  now rewrite (str_compare_lt_trans a b c E1 E2).
Qed.

Lemma str_lt_irrefl (a : string) : ~ str_lt a a.
Proof. unfold str_lt, String.ltb. now rewrite str_compare_refl. Qed.

(** Of two different strings, one is below the other. *)
Lemma str_ltb_false (x y : string) :
  String.ltb y x = false -> x <> y -> str_lt x y.
Proof.
  unfold str_lt, String.ltb. rewrite (String.compare_antisym x y).
  destruct (String.compare y x) eqn:E; intros H Hne; try discriminate.
  - apply String.compare_eq_iff in E. congruence.
  - reflexivity.
Qed.

Lemma insert_asc_sorted (x : string) (l : list string) :
  x ∉ l -> StronglySorted str_lt l -> StronglySorted str_lt (insert_asc x l).
Proof.
  intros Hx Hs. induction Hs as [|y l Hs IH Hy]; cbn [insert_asc].
  - repeat constructor.
  - apply not_elem_of_cons in Hx as [Hne Hx].
    destruct (String.ltb y x) eqn:E.
    + constructor; [now apply IH|].
      rewrite insert_asc_perm. now constructor.
    + apply str_ltb_false in E; [|assumption].
      constructor; [now constructor|].
      constructor; [assumption|].
      eapply Forall_impl; [exact Hy|]. intros z Hz. eapply str_lt_trans; eassumption.
Qed.

Lemma sorted_ascending (l : list string) :
  NoDup l -> StronglySorted str_lt (sorted l).
Proof.
  induction 1 as [|x l Hx Hl IH]; [constructor|].
  change (sorted (x :: l)) with (insert_asc x (sorted l)).
  apply insert_asc_sorted; [|assumption]. now rewrite sorted_perm.
Qed.

Lemma sorted_unique (l1 l2 : list string) :
  NoDup l1 -> NoDup l2 -> l1 ≡ₚ l2 -> sorted l1 = sorted l2.
Proof.
  intros H1 H2 Hp.
  apply (StronglySorted_unique_strong str_lt).
  - intros a b _ _ Hab Hba. exfalso.
    apply (str_lt_irrefl a). eapply str_lt_trans; eassumption.
  - now apply sorted_ascending.
  - now apply sorted_ascending.
  - now rewrite !sorted_perm.
Qed.

End SaveSeen.

(** X10. [save_seen] writes the identifiers of the set, each once, in
    strictly ascending order; the list does not depend on the order in which
    the set is enumerated; and [load_seen] reads the same set back. *)
Theorem save_seen_sorted_round_trip (S : gset string) :
  load_seen (save_seen S) = Returned S
  /\ (exists l, save_seen S = Stored (Returned l)
                /\ StronglySorted str_lt l
                /\ forall x, x ∈ l <-> x ∈ S)
  /\ (forall l, NoDup l -> list_to_set l = S -> sorted l = sorted (elements S)).
Proof.
  split; [apply load_save|]. split.
  - exists (sorted (elements S)). split; [reflexivity|]. split.
    + apply sorted_ascending, NoDup_elements.
    + intros x. rewrite sorted_perm. apply elem_of_elements.
  - intros l Hl <-. apply sorted_unique; [assumption | apply NoDup_elements|].
    symmetry. now apply elements_list_to_set.
Qed.

(** ** main, continued *)

(** X11. Without marking, a run leaves the seen set as it found it, and a
    second run from the saved state over the same content gives the same
    report. *)
Theorem rerun_without_marking (w : world) (e : env) (r : report) :
  mark_seen_of e = false -> main w e = Completed r ->
  load_seen (saved r) = load_seen (state_seen e)
  /\ main w (with_state e (saved r)) = Completed r.
Proof.
  intros Hmark H.
  apply main_completed in H as (sources & seen0 & st & Hsrc & Hseen & Hrun & ->).
  cbn [saved].
  pose proof (run_sources_marks _ _ _ _ _ _ Hrun) as Hm. rewrite Hmark in Hm.
  rewrite Hm, load_save. split; [now symmetry|].
  rewrite <- Hm at 2.
  apply (main_of_run w (with_state e (save_seen seen0)) sources seen0 st);
    [exact Hsrc | apply load_save | exact Hrun].
Qed.

Lemma rerun_without_marking_witness :
  exists r,
    main Demo.world (Demo.env [Demo.trade; Demo.down; Demo.site] None) = Completed r
    /\ main Demo.world
         (with_state (Demo.env [Demo.trade; Demo.down; Demo.site] None) (saved r))
       = Completed r.
Proof.
  eexists. split; [vm_compute; reflexivity|].
  apply (rerun_without_marking Demo.world
           (Demo.env [Demo.trade; Demo.down; Demo.site] None));
    [reflexivity | vm_compute; reflexivity].
Defined.

Section Provenance.

Variable w : world.
Variable min_score : float.
Variable mark_seen : bool.

Lemma process_item_cases (s : source_cfg) (c : core) (it : item) (c' : core) :
  process_item min_score mark_seen s c it = Returned c' ->
  (c' = c /\ skipped min_score c it)
  \/ exists r,
       (sid_of it ∉ seen c)
       /\ make_scored s it (sid_of it) (score_of it)
            (snd (score_item (item_text it))) = Returned r
       /\ below (score_of it) min_score = false
       /\ c' = Core (all_items c ++ [r])
                    (if mark_seen then {[sid_of it]} ∪ seen c else seen c).
Proof.
  unfold process_item, skipped, sid_of, score_of.
  destruct (decide (_ ∈ seen c)) as [Hin|Hin]; [intros [= <-]; auto|].
  destruct (score_item (item_text it)) as [sc h]. cbn [fst snd].
  destruct (below sc min_score) eqn:Hb; [intros [= <-]; auto|].
  destruct (make_scored _ _ _ _ _) as [r|d] eqn:E; [|discriminate].
  intros [= <-]. right. exists r. auto.
Qed.

Variable sources : list source_cfg.
Variable seen0 : gset string.

Lemma process_items_sound (s : source_cfg) (items : list item) :
  s ∈ sources -> adapter w s = Returned items ->
  forall rest c c',
    rest ⊆ items -> sound w min_score sources seen0 c ->
    process_items min_score mark_seen s c rest = Returned c' -> sound w min_score sources seen0 c'.
Proof.
  intros Hs Ha. induction rest as [|it rest IH]; intros c c' Hsub Hc H.
  - now injection H as <-.
  - cbn [process_items] in H.
    destruct (process_item min_score mark_seen s c it) as [c1|d] eqn:E;
      [|discriminate].
    apply (IH c1 c'); [set_solver | | exact H].
    apply process_item_cases in E as [[-> _]|(r & Hnew & Hr & Hb & ->)];
      [assumption|].
    destruct Hc as [Hsub0 Hall]. split.
    + cbn [seen]. destruct mark_seen; set_solver.
    + cbn [all_items]. apply Forall_app. split; [assumption|].
      constructor; [|constructor].
      pose proof (make_scored_inv _ _ _ _ _ _ Hr) as (Hbase & Hid & Hsc & _).
      split; [rewrite Hid; set_solver|].
      exists s. split; [assumption|]. exists items.
      rewrite Hbase, Hsc. repeat split; try assumption. set_solver.
Qed.

Lemma run_sources_sound : forall l st st',
  l ⊆ sources -> sound w min_score sources seen0 (st_core st) ->
  run_sources w min_score mark_seen st l = inl st' -> sound w min_score sources seen0 (st_core st').
Proof.
  induction l as [|s l IH]; intros st st' Hsub Hc H.
  - now injection H as <-.
  - cbn [run_sources] in H.
    destruct (visit w min_score mark_seen st s) as [st1|x] eqn:E; [|discriminate].
    apply (IH st1 st'); [set_solver | | exact H].
    unfold visit in E. destruct (adapter w s) as [items|d] eqn:Ha.
    + destruct (process_items min_score mark_seen s (st_core st) items)
        as [c|d] eqn:Ei; [|discriminate].
      injection E as <-. cbn [st_core].
      eapply (process_items_sound s items); [set_solver | exact Ha | | exact Hc | exact Ei].
      reflexivity.
    + destruct (s_name s); [|discriminate]. now injection E as <-.
Qed.

End Provenance.

Section Coverage.

Variable w : world.
Variable min_score : float.
Variable mark_seen : bool.
Variable seen0 : gset string.

Lemma process_items_complete (s : source_cfg) (items : list item) : forall c c',
  seen c ⊆ covered seen0 c ->
  process_items min_score mark_seen s c items = Returned c' ->
  seen c' ⊆ covered seen0 c' /\ covered seen0 c ⊆ covered seen0 c'
  /\ forall it, it ∈ items -> below (score_of it) min_score = false ->
                sid_of it ∈ covered seen0 c'.
Proof.
  induction items as [|it items IH]; intros c c' Hc H.
  - injection H as <-. split; [assumption|]. split; [reflexivity|].
    intros it Hit. inversion Hit.
  - cbn [process_items] in H.
    destruct (process_item min_score mark_seen s c it) as [c1|d] eqn:E;
      [|discriminate].
    assert (seen c1 ⊆ covered seen0 c1 /\ covered seen0 c ⊆ covered seen0 c1
            /\ (below (score_of it) min_score = false -> sid_of it ∈ covered seen0 c1))
      as (Hc1 & Hmono & Hit).
    { apply process_item_cases in E as [[-> Hskip]|(r & Hnew & Hr & Hb & ->)].
      - split; [assumption|]. split; [reflexivity|].
        intros Hb. destruct Hskip as [Hin|Hlow]; [set_solver | congruence].
      - apply make_scored_inv in Hr as (_ & Hid & _).
        clear IH H. unfold covered, ids in *. cbn [all_items seen].
        rewrite map_app, list_to_set_app_L. cbn [List.map list_to_set].
        rewrite Hid. destruct mark_seen; set_solver. }
    destruct (IH c1 c' Hc1 H) as (Hc' & Hmono' & Hrest).
    split; [assumption|]. split; [etransitivity; eassumption|].
    intros it' Hin Hb. apply elem_of_cons in Hin as [->|Hin]; [|auto].
    apply Hmono', Hit, Hb.
Qed.

Lemma run_sources_complete : forall l st st',
  seen (st_core st) ⊆ covered seen0 (st_core st) ->
  run_sources w min_score mark_seen st l = inl st' ->
  seen (st_core st') ⊆ covered seen0 (st_core st')
  /\ covered seen0 (st_core st) ⊆ covered seen0 (st_core st')
  /\ forall s items it,
       s ∈ l -> adapter w s = Returned items -> it ∈ items ->
       below (score_of it) min_score = false ->
       sid_of it ∈ covered seen0 (st_core st').
Proof.
  induction l as [|s l IH]; intros st st' Hc H.
  - injection H as <-. split; [assumption|]. split; [reflexivity|].
    intros s items it Hs. inversion Hs.
  - cbn [run_sources] in H.
    destruct (visit w min_score mark_seen st s) as [st1|x] eqn:E; [|discriminate].
    assert (seen (st_core st1) ⊆ covered seen0 (st_core st1)
            /\ covered seen0 (st_core st) ⊆ covered seen0 (st_core st1)
            /\ forall items it, adapter w s = Returned items -> it ∈ items ->
                 below (score_of it) min_score = false ->
                 sid_of it ∈ covered seen0 (st_core st1)) as (Hc1 & Hmono & Hs).
    { unfold visit in E. destruct (adapter w s) as [items|d] eqn:Ha.
      - destruct (process_items min_score mark_seen s (st_core st) items)
          as [c|d] eqn:Ei; [|discriminate].
        injection E as <-. cbn [st_core].
        destruct (process_items_complete s items _ _ Hc Ei) as (? & ? & Hit).
        split; [assumption|]. split; [assumption|].
        intros items' it [= <-]. apply Hit.
      - destruct (s_name s); [|discriminate]. injection E as <-. cbn [st_core].
        split; [assumption|]. split; [reflexivity|]. discriminate. }
    destruct (IH st1 st' Hc1 H) as (Hc' & Hmono' & Hrest).
    split; [assumption|]. split; [etransitivity; eassumption|].
    intros s' items it Hin Ha Hit Hb.
    apply elem_of_cons in Hin as [->|Hin]; [|eauto].
    apply Hmono'. eauto.
Qed.

End Coverage.

(** X12. Every record of the digest is the record built for an item that
    the adapter of one of the sources returned; its identifier was not in the
    loaded seen set and its score is not below the threshold. *)
Theorem digest_sound (w : world) (e : env) (r : report) (x : scored) :
  main w e = Completed r -> x ∈ digest r ->
  exists sources seen0 s,
    sources_json e = Returned sources
    /\ load_seen (state_seen e) = Returned seen0
    /\ s ∈ sources
    /\ (id x ∉ seen0)
    /\ comes_from w (min_score_of e) s x.
Proof.
  intros H Hx.
  apply main_completed in H as (sources & seen0 & st & Hsrc & Hseen & Hrun & ->).
  cbn [digest] in Hx. rewrite sort_items_perm in Hx.
  destruct (run_sources_sound w (min_score_of e) (mark_seen_of e) sources seen0
              sources (start seen0) st) as [_ Hall];
    [reflexivity | split; [reflexivity | constructor] | exact Hrun |].
  rewrite Forall_forall in Hall.
  destruct (Hall x Hx) as (Hid & s & Hs & Hfrom).
  exists sources, seen0, s. auto.
Qed.

Lemma digest_sound_witness :
  exists r x rest sources seen0 s,
    main Demo.world (Demo.env [Demo.trade; Demo.down; Demo.site] None) = Completed r
    /\ digest r = x :: rest
    /\ sources_json (Demo.env [Demo.trade; Demo.down; Demo.site] None) = Returned sources
    /\ load_seen Missing = Returned seen0
    /\ s ∈ sources
    /\ (id x ∉ seen0)
    /\ comes_from Demo.world 3.5 s x.
Proof.
  do 3 eexists.
  destruct (digest_sound Demo.world
              (Demo.env [Demo.trade; Demo.down; Demo.site] None) _ _
              ltac:(vm_compute; reflexivity) ltac:(left))
    as (sources & seen0 & s & H1 & H2 & H3 & H4 & H5).
  exists sources, seen0, s.
  split; [vm_compute; reflexivity|]. split; [reflexivity|]. auto 10.
Defined.

(** X13. Every item that an adapter returned, whose identifier was not in
    the loaded seen set and whose score is not below the threshold, is
    represented in the digest by a record with its identifier. *)
Theorem digest_complete (w : world) (e : env) (r : report)
    (sources : list source_cfg) (seen0 : gset string)
    (s : source_cfg) (items : list item) (it : item) :
  main w e = Completed r ->
  sources_json e = Returned sources ->
  load_seen (state_seen e) = Returned seen0 ->
  s ∈ sources -> adapter w s = Returned items -> it ∈ items ->
  sid_of it ∉ seen0 -> below (score_of it) (min_score_of e) = false ->
  exists x, x ∈ digest r /\ id x = sid_of it.
Proof.
  intros H Hsrc Hseen Hs Ha Hit Hnew Hb.
  apply main_completed in H as (sources' & seen0' & st & Hsrc' & Hseen' & Hrun & ->).
  assert (sources' = sources) as -> by congruence.
  assert (seen0' = seen0) as -> by congruence.
  destruct (run_sources_complete w (min_score_of e) (mark_seen_of e) seen0
              sources (start seen0) st) as (_ & _ & Hall);
    [unfold covered; cbn; set_solver | exact Hrun |].
  specialize (Hall s items it Hs Ha Hit Hb).
  unfold covered in Hall.
  apply elem_of_union in Hall as [Hin|Hin]; [contradiction|].
  unfold ids in Hin. apply elem_of_list_to_set, list_elem_of_fmap in Hin
    as (x & Hid & Hx).
  exists x. cbn [digest]. rewrite sort_items_perm. auto.
Qed.

Lemma digest_complete_witness :
  exists r x,
    main Demo.world (Demo.env [Demo.trade] (Some "1")) = Completed r
    /\ x ∈ digest r
    /\ id x = sid_of (Item "Oscars, BAFTA, Emmy and guild preview"
                           "https://trade.example/b" "" "").
Proof.
  eexists.
  destruct (digest_complete Demo.world (Demo.env [Demo.trade] (Some "1")) _
              [Demo.trade] ∅ Demo.trade _
              (Item "Oscars, BAFTA, Emmy and guild preview"
                    "https://trade.example/b" "" "")
              ltac:(vm_compute; reflexivity) eq_refl eq_refl
              ltac:(left) ltac:(vm_compute; reflexivity)
              ltac:(right; left) ltac:(apply not_elem_of_empty)
              ltac:(vm_compute; reflexivity))
    as (x & Hx & Hid).
  exists x. split; [vm_compute; reflexivity|]. split; assumption.
Defined.

(** X14. When marking is on, no two records of the digest have the same
    identifier: an item met again in the same run is already seen. *)
Theorem digest_ids_distinct (w : world) (e : env) (r : report) :
  mark_seen_of e = true -> main w e = Completed r ->
  NoDup (List.map id (digest r)).
Proof.
  intros Hmark H.
  apply main_completed in H as (sources & seen0 & st & _ & _ & Hrun & ->).
  cbn [digest].
  rewrite (Permutation_map id (sort_items_perm (all_items (st_core st)))).
  rewrite Hmark in Hrun.
  apply (run_sources_inv w (min_score_of e) true
           (fun c => NoDup (List.map id (all_items c))
                     /\ ids (all_items c) ⊆ seen c)) in Hrun.
  - apply Hrun.
  - intros s c it c' [Hnd Hsub] Hstep.
    apply process_item_inv in Hstep
      as [[-> _]|(Hnew & _ & x & _ & Hid & _ & ->)]; [auto|].
    cbn [all_items seen]. unfold ids in *. rewrite map_app.
    split.
    + apply NoDup_app. split; [assumption|]. split; [|repeat constructor; inversion 1].
      intros y Hy Hy'. apply list_elem_of_singleton in Hy'. subst y.
      apply Hnew, Hsub, elem_of_list_to_set. now rewrite <- Hid.
    + rewrite list_to_set_app_L. cbn [List.map list_to_set]. rewrite Hid.
      set_solver.
  - split; [constructor | set_solver].
Qed.

Lemma digest_ids_distinct_witness :
  exists r,
    main Demo.world (Demo.env [Demo.trade; Demo.trade] (Some "1")) = Completed r
    /\ NoDup (List.map id (digest r)).
Proof.
  eexists. split; [vm_compute; reflexivity|].
  apply (digest_ids_distinct Demo.world (Demo.env [Demo.trade; Demo.trade] (Some "1")));
    [reflexivity | vm_compute; reflexivity].
Defined.

(** X15. A source that has no name and whose adapter raises stops the run:
    the KeyError raised while the failure is recorded is not caught, so
    nothing is ranked and nothing is saved. *)
Theorem failure_without_name_aborts (w : world) (e : env)
    (l1 l2 : list source_cfg) (s : source_cfg) (seen0 : gset string)
    (st1 : state) (d : string) :
  sources_json e = Returned (l1 ++ s :: l2) ->
  load_seen (state_seen e) = Returned seen0 ->
  run_sources w (min_score_of e) (mark_seen_of e) (start seen0) l1 = inl st1 ->
  adapter w s = Raised d -> s_name s = None ->
  main w e = Aborted "'name'" (fetched st1 ++ location s).
Proof.
  intros Hsrc Hseen Hrun Ha Hn. unfold main, load_sources.
  rewrite Hsrc, Hseen. fold (start seen0).
  rewrite run_sources_app, Hrun. cbn [run_sources].
  unfold visit. now rewrite Ha, Hn.
Qed.

Lemma failure_without_name_aborts_witness :
  main Demo.world
    (Demo.env [Demo.trade;
               SourceCfg None (Some "https://down.example/feed") None
                         (Some "critic") (Some true) (Some true);
               Demo.site] None)
  = Aborted "'name'" ["https://trade.example/feed"; "https://down.example/feed"].
Proof.
  eapply eq_trans.
  - eapply (failure_without_name_aborts Demo.world _ [Demo.trade] [Demo.site] _ ∅ _
              "HTTP 503");
      [reflexivity | reflexivity | vm_compute; reflexivity | reflexivity | reflexivity].
  - vm_compute. reflexivity.
Defined.

Section LateKeyError.

Variable min_score : float.
Variable mark_seen : bool.

Lemma make_scored_incomplete (s : source_cfg) :
  ~ complete s ->
  exists d, forall it sid sc h, make_scored s it sid sc h = Raised d.
Proof.
  unfold complete, make_scored. intros H.
  destruct (s_name s); [|eauto].
  destruct (s_type s); [|eauto].
  destruct (s_affects_nom s); [|eauto].
  destruct (s_affects_win s); [|eauto].
  exfalso. apply H. repeat split; eauto.
Qed.

Lemma process_item_skipped (s : source_cfg) (c : core) (it : item) :
  skipped min_score c it ->
  process_item min_score mark_seen s c it = Returned c.
Proof.
  intros H. unfold process_item. fold (sid_of it).
  destruct (decide (sid_of it ∈ seen c)) as [|Hn]; [reflexivity|].
  destruct H as [?|Hb]; [contradiction|].
  unfold score_of in Hb. destruct (score_item (item_text it)) as [sc h].
  cbn [fst] in Hb. now rewrite Hb.
Qed.

Lemma process_item_incomplete (s : source_cfg) (c : core) (it : item) (d : string) :
  (forall it sid sc h, make_scored s it sid sc h = Raised d) ->
  ~ skipped min_score c it ->
  process_item min_score mark_seen s c it = Raised d.
Proof.
  intros Hd H. unfold process_item, skipped in *. fold (sid_of it).
  destruct (decide (sid_of it ∈ seen c)) as [|Hn]; [tauto|].
  unfold score_of in H. destruct (score_item (item_text it)) as [sc h].
  cbn [fst] in H. destruct (below sc min_score); [tauto|].
  now rewrite Hd.
Qed.

Lemma skipped_dec (c : core) (it : item) :
  skipped min_score c it \/ ~ skipped min_score c it.
Proof.
  unfold skipped.
  destruct (decide (sid_of it ∈ seen c)); [auto|].
  destruct (below (score_of it) min_score); [auto|].
  right. intros [?|?]; [contradiction | discriminate].
Qed.

End LateKeyError.

(** X16. A source that lacks one of the keys name, type, affects_nom and
    affects_win is harmless as long as each of its items is skipped (seen, or
    below the threshold); the first item that is not skipped raises the
    KeyError. *)
Theorem missing_key_raises_on_first_kept_item (min_score : float)
    (mark_seen : bool) (s : source_cfg) (c : core) (items : list item) :
  ~ complete s ->
  (Forall (skipped min_score c) items ->
     process_items min_score mark_seen s c items = Returned c)
  /\ (~ Forall (skipped min_score c) items ->
        exists d, process_items min_score mark_seen s c items = Raised d).
Proof.
  intros Hs. destruct (make_scored_incomplete s Hs) as [d Hd]. split.
  - induction 1 as [|it items Hit _ IH]; [reflexivity|].
    cbn [process_items]. now rewrite process_item_skipped.
  - intros H. exists d. induction items as [|it items IH].
    + exfalso. apply H. constructor.
    + cbn [process_items].
      destruct (skipped_dec min_score c it) as [Hit|Hit].
      * rewrite process_item_skipped by assumption. apply IH.
        intros Hall. apply H. now constructor.
      * now rewrite (process_item_incomplete min_score mark_seen s c it d).
Qed.

Lemma missing_key_raises_on_first_kept_item_witness :
  process_items 3.5 false
    (SourceCfg (Some "Trade") (Some "https://trade.example/feed") None
               None (Some true) (Some false))
    (Core [] ∅) [Demo.plain]
  = Returned (Core [] ∅)
  /\ exists d,
       process_items 3.5 false
         (SourceCfg (Some "Trade") (Some "https://trade.example/feed") None
                    None (Some true) (Some false))
         (Core [] ∅)
         [Demo.plain;
          Item "Oscars, BAFTA, Emmy and guild round-up" "https://trade.example/a" "" ""]
       = Raised d.
Proof.
  assert (~ complete (SourceCfg (Some "Trade") (Some "https://trade.example/feed")
                                None None (Some true) (Some false))) as Hs
      by (intros (_ & [t Ht] & _); discriminate Ht).
  split.
  - apply (missing_key_raises_on_first_kept_item 3.5 false _ (Core [] ∅) _ Hs).
    constructor; [|constructor]. right. vm_compute. reflexivity.
  - apply (missing_key_raises_on_first_kept_item 3.5 false _ (Core [] ∅) _ Hs).
    intros H. apply Forall_cons in H as [_ H]. apply Forall_cons in H as [[H|H] _].
    + revert H. apply not_elem_of_empty.
    + vm_compute in H. discriminate H.
Defined.

(** X17. The failures of a completed run are the entries "name: detail" of
    the sources whose adapter raised, in the order of the source list, and the
    run asked for the location of every source once, in that order. *)
Theorem failures_in_source_order (w : world) (e : env) (r : report)
    (sources : list source_cfg) :
  main w e = Completed r -> sources_json e = Returned sources ->
  failures r = flat_map (reported w) sources
  /\ requests r = flat_map location sources.
Proof.
  intros H Hsrc.
  apply main_completed in H as (sources' & seen0 & st & Hsrc' & _ & Hrun & ->).
  assert (sources' = sources) as -> by congruence.
  apply run_sources_logs in Hrun as [He Hf]. cbn [failures requests].
  now rewrite He, Hf.
Qed.

Lemma failures_in_source_order_witness :
  exists r,
    main Demo.world (Demo.env [Demo.down; Demo.trade; Demo.down] None) = Completed r
    /\ failures r = ["Down: HTTP 503"; "Down: HTTP 503"]
    /\ requests r = ["https://down.example/feed"; "https://trade.example/feed";
                     "https://down.example/feed"].
Proof.
  eexists. split; [vm_compute; reflexivity|].
  destruct (failures_in_source_order Demo.world
              (Demo.env [Demo.down; Demo.trade; Demo.down] None) _
              [Demo.down; Demo.trade; Demo.down]
              ltac:(vm_compute; reflexivity) eq_refl) as [-> ->].
  split; vm_compute; reflexivity.
Defined.

(** ** The ranking, continued *)

Section Stability.

Lemma key_ltb_strict (x y : scored) :
  key_ltb (sort_key x) (sort_key y) = true -> ~ ranked_before x y.
Proof.
  unfold key_ltb, sort_key. cbn [fst snd]. rewrite ranked_before_compare.
  destruct (score x =? score y)%float eqn:E.
  - apply FloatOrder.eqb_fcompare in E. unfold dt_ltb.
    intros H [Hlt|[_ Hd]].
    + rewrite FloatOrder.fcompare_swap, E in Hlt. discriminate.
    + rewrite dt_compare_swap in Hd.
      destruct (dt_compare _ _); cbn in *; congruence.
  - intros H [Hlt|[He _]].
    + apply FloatOrder.ltb_fcompare in H.
      rewrite FloatOrder.fcompare_swap, H in Hlt. discriminate.
    + apply FloatOrder.eqb_fcompare in He. congruence.
Qed.

Lemma same_key_not_below (k x y : scored) :
  number (score k) -> number (score x) -> number (score y) ->
  same_key k x = true -> same_key k y = true ->
  key_ltb (sort_key x) (sort_key y) = false.
Proof.
  intros Nk Nx Ny Hx Hy. unfold same_key in *.
  apply andb_true_iff in Hx as [_ Hxk], Hy as [Hky _].
  apply negb_true_iff in Hxk, Hky.
  apply not_true_iff_false. intros H. apply key_ltb_strict in H. apply H.
  apply (ranked_before_trans x k y); apply key_ltb_false; assumption.
Qed.

Lemma insert_desc_filter (k x : scored) (l : list scored) :
  number (score k) -> number (score x) ->
  Forall (fun y => number (score y)) l ->
  List.filter (same_key k) (insert_desc x l)
  = List.filter (same_key k) (x :: l).
Proof.
  intros Nk Nx. induction 1 as [|y l Ny Nl IH]; [reflexivity|].
  cbn [insert_desc].
  destruct (key_ltb (sort_key x) (sort_key y)) eqn:E; [|reflexivity].
  cbn [List.filter] in *. rewrite IH.
  destruct (same_key k x) eqn:Hx, (same_key k y) eqn:Hy; try reflexivity.
  rewrite (same_key_not_below k x y) in E by assumption. discriminate.
Qed.

Lemma sort_items_filter (k : scored) (l : list scored) :
  number (score k) -> Forall (fun y => number (score y)) l ->
  List.filter (same_key k) (sort_items l) = List.filter (same_key k) l.
Proof.
  intros Nk. induction 1 as [|x l Nx Nl IH]; [reflexivity|].
  change (sort_items (x :: l)) with (insert_desc x (sort_items l)).
  rewrite insert_desc_filter; [|assumption..|now rewrite sort_items_perm].
  cbn [List.filter]. now rewrite IH.
Qed.

End Stability.

(** X18. The ranking is stable: the records whose score and timestamp equal
    those of a given record stand in the digest in the order in which the run
    collected them. *)
Theorem digest_ties_keep_order (w : world) (e : env) (r : report) (k : scored) :
  main w e = Completed r -> number (score k) ->
  exists sources seen0 st,
    sources_json e = Returned sources
    /\ load_seen (state_seen e) = Returned seen0
    /\ run_sources w (min_score_of e) (mark_seen_of e) (start seen0) sources = inl st
    /\ List.filter (same_key k) (digest r)
       = List.filter (same_key k) (all_items (st_core st)).
Proof.
  intros H Nk.
  apply main_completed in H as (sources & seen0 & st & Hsrc & Hseen & Hrun & ->).
  exists sources, seen0, st. repeat split; try assumption.
  cbn [digest]. apply sort_items_filter; [assumption|].
  eapply run_sources_numbers; [|exact Hrun]. constructor.
Qed.

Lemma digest_ties_keep_order_witness :
  exists r sources seen0 st,
    main Demo.world (Demo.env [Demo.archive; Demo.trade] None) = Completed r
    /\ run_sources Demo.world 3.5 false (start seen0) sources = inl st
    /\ List.filter
         (same_key (Scored (Item "" "" "" "") "" 5 [] "" "" false false))
         (digest r)
       = List.filter
           (same_key (Scored (Item "" "" "" "") "" 5 [] "" "" false false))
           (all_items (st_core st)).
Proof.
  eexists.
  destruct (digest_ties_keep_order Demo.world
              (Demo.env [Demo.archive; Demo.trade] None) _
              (Scored (Item "" "" "" "") "" 5 [] "" "" false false)
              ltac:(vm_compute; reflexivity) ltac:(vm_compute; reflexivity))
    as (sources & seen0 & st & _ & _ & Hrun & Heq).
  exists sources, seen0, st.
  split; [vm_compute; reflexivity|]. split; [exact Hrun | exact Heq].
Defined.

(** ** The dedupe loop of parse_listing *)

Section Dedup.

Lemma dedup_first (l1 l2 : list item) (it : item) : forall (S : gset string),
  url it ∉ S -> url it ∉ List.map url l1 ->
  it ∈ dedup S (l1 ++ it :: l2).
Proof.
  induction l1 as [|x l1 IH]; intros S HS Hl; cbn [app dedup].
  - destruct (decide (url it ∈ S)); [contradiction | left].
  - cbn [List.map] in Hl. apply not_elem_of_cons in Hl as [Hne Hl].
    destruct (decide (url x ∈ S)); [now apply IH|].
    right. apply IH; [set_solver | assumption].
Qed.

Lemma dedup_sublist (l : list item) : forall (S : gset string),
  dedup S l `sublist_of` l.
Proof.
  induction l as [|x l IH]; intros S; cbn [dedup]; [constructor|].
  destruct (decide (url x ∈ S)); constructor; apply IH.
Qed.

End Dedup.

(** X19. Removing duplicates keeps, for each url, the first item that has
    it, in the order of the page, and nothing twice. *)
Theorem dedup_first_wins (l1 l2 : list item) (it : item) :
  (url it ∉ List.map url l1 -> it ∈ dedup ∅ (l1 ++ it :: l2))
  /\ dedup ∅ (l1 ++ it :: l2) `sublist_of` (l1 ++ it :: l2)
  /\ NoDup (List.map url (dedup ∅ (l1 ++ it :: l2))).
Proof.
  split; [|split].
  - intros H. apply dedup_first; [apply not_elem_of_empty | assumption].
  - apply dedup_sublist.
  - apply dedup_distinct.
Qed.

(** ** Overlapping terms of score_item *)

Section Substrings.

Lemma startswith_spec (p s : string) :
  Py.startswith p s = true <-> exists b, s = p +:+ b.
Proof.
  revert s. induction p as [|c p IH]; intros s.
  - split; [intros _; exists s; reflexivity | reflexivity].
  - destruct s as [|d s]; cbn [Py.startswith].
    + split; [discriminate | intros [b Hb]; discriminate Hb].
    + rewrite andb_true_iff, Ascii.eqb_eq, IH. split.
      * intros [-> [b ->]]. exists b. reflexivity.
      * intros [b Hb]. rewrite append_cons in Hb. injection Hb as -> ->. eauto.
Qed.

(** [p in s]: [s] is some text, then [p], then some text. *)
Lemma contains_spec (p s : string) :
  Py.contains p s = true <-> exists a b, s = a +:+ p +:+ b.
Proof.
  induction s as [|d s IH].
  - cbn [Py.contains]. rewrite orb_false_r, startswith_spec. split.
    + intros [b Hb]. exists EmptyString, b. now rewrite append_nil.
    + intros ([|c a] & b & H).
      * exists b. now rewrite append_nil in H.
      * rewrite append_cons in H. discriminate H.
  - cbn [Py.contains]. rewrite orb_true_iff, startswith_spec, IH. split.
    + intros [[b Hb]|(a & b & ->)].
      * exists EmptyString, b. now rewrite append_nil.
      * exists (String d a), b. now rewrite append_cons.
    + intros ([|c a] & b & H).
      * left. exists b. now rewrite append_nil in H.
      * right. rewrite append_cons in H. injection H as -> ->. eauto.
Qed.

Lemma append_assoc (a b c : string) : (a +:+ b) +:+ c = a +:+ b +:+ c.
Proof.
  induction a as [|x a IH]; [now rewrite !append_nil|].
  now rewrite !append_cons, IH.
Qed.

(** A text that holds [b] holds every string that [b] holds. *)
Lemma contains_trans (a b t : string) :
  Py.contains a b = true -> Py.contains b t = true -> Py.contains a t = true.
Proof.
  rewrite !contains_spec. intros (x & y & ->) (u & v & ->).
  exists (u +:+ x), (y +:+ v). now rewrite !append_assoc.
Qed.

Lemma elem_of_filter_list {A} (p : A -> bool) (l : list A) (x : A) :
  x ∈ List.filter p l <-> x ∈ l /\ p x = true.
Proof. rewrite !list_elem_of_In. apply filter_In. Qed.

(** In a list without repetition, what stands before an element of a
    prefix is in that prefix. *)
Lemma take_before {A} (n : nat) (l1 l2 : list A) (a b : A) :
  NoDup (l1 ++ a :: l2) -> b ∈ l2 ->
  b ∈ take n (l1 ++ a :: l2) -> a ∈ take n (l1 ++ a :: l2).
Proof.
  intros Hnd Hb Hin.
  apply list_elem_of_lookup in Hin as [j Hj].
  apply lookup_take_Some in Hj as [Hj Hlt].
  apply list_elem_of_lookup. exists (List.length l1).
  apply lookup_take_Some. split.
  - rewrite lookup_app_r by lia. now rewrite Nat.sub_diag.
  - destruct (Nat.le_gt_cases j (List.length l1)) as [Hle|]; [|lia].
    exfalso. apply NoDup_app in Hnd as (_ & Hdis & Hnd).
    apply NoDup_cons in Hnd as [Ha _].
    destruct (Nat.eq_dec j (List.length l1)) as [->|Hne].
    + rewrite lookup_app_r, Nat.sub_diag in Hj by lia.
      injection Hj as ->. contradiction.
    + rewrite lookup_app_l in Hj by lia.
      apply (Hdis b); [eapply list_elem_of_lookup_2; eassumption | now right].
Qed.

End Substrings.

(** X20. Overlapping terms are counted together: when a signal holds an
    award term that stands before it in the vocabulary, that term is a signal
    too (so "oscars" never comes without "oscar", nor "nominations" without
    "nomination"). *)
Theorem signals_closed_under_substrings (text : string)
    (l1 l2 : list string) (a b : string) :
  AWARD_TERMS = l1 ++ a :: l2 -> b ∈ l2 ->
  Py.contains a b = true ->
  b ∈ snd (score_item text) -> a ∈ snd (score_item text).
Proof.
  intros Hsplit Hb Hab. rewrite score_item_eq. cbn [snd].
  set (m := fun kw => Py.contains kw (Py.lower text)).
  intros Hin.
  assert (m b = true) as Hmb.
  { apply subseteq_take, elem_of_filter_list in Hin. apply Hin. }
  assert (m a = true) as Hma by (eapply contains_trans; eassumption).
  assert (NoDup (List.filter m AWARD_TERMS)) as Hnd
      by (eapply sublist_NoDup; [apply AWARD_TERMS_NoDup | apply filter_sublist]).
  revert Hin Hnd. rewrite Hsplit, List.filter_app. cbn [List.filter]. rewrite Hma.
  intros Hin Hnd. eapply take_before; [exact Hnd | | exact Hin].
  apply elem_of_filter_list. auto.
Qed.

Lemma signals_closed_under_substrings_witness :
  "nomination" ∈ snd (score_item "Oscar Nominations 2025: the full list").
Proof.
  apply (signals_closed_under_substrings _
           ["oscar"; "oscars"; "academy award"; "academy awards"; "bafta"; "emmy";
            "golden globe"; "golden globes"; "sag"; "dga"; "pga"; "wga"; "guild";
            "nominee"; "nominees"]
           ["nominations"; "shortlist"; "longlist"; "winner"; "winners"; "wins";
            "for your consideration"; "fyc"; "campaign"; "contender";
            "awards season"; "critics choice"; "cannes"; "venice"; "berlin";
            "sundance"; "telluride"; "tiff"] "nomination" "nominations");
    [reflexivity | left | vm_compute; reflexivity |].
  apply (bool_decide_unpack _). vm_compute. reflexivity.
Defined.

(** ** White space in the titles of parse_listing *)

Section Squeeze.

Lemma append_nil_r (s : string) : s +:+ "" = s.
Proof. induction s as [|c s IH]; [reflexivity|]. now rewrite append_cons, IH. Qed.

Lemma rev_string_rev (s : string) : forall a b,
  Py.rev_string a (Py.rev_string b s) = Py.rev_string (s +:+ a) b.
Proof.
  induction s as [|c s IH]; intros a b; cbn [Py.rev_string].
  - now rewrite append_nil.
  - rewrite IH. cbn [Py.rev_string]. now rewrite append_cons.
Qed.

Lemma rev_string_involutive (s : string) :
  Py.rev_string "" (Py.rev_string "" s) = s.
Proof. rewrite rev_string_rev. cbn [Py.rev_string]. apply append_nil_r. Qed.

Lemma rev_string_solid (s : string) : forall acc,
  solid s -> solid acc -> solid (Py.rev_string acc s).
Proof.
  unfold solid. induction s as [|c s IH]; intros acc Hs Ha; [assumption|].
  cbn [Py.rev_string all_chars] in *. apply andb_true_iff in Hs as [Hc Hs].
  apply IH; [assumption|]. cbn [all_chars]. now rewrite Hc.
Qed.

Lemma rev_string_nonempty (s : string) : forall acc,
  s <> EmptyString \/ acc <> EmptyString -> Py.rev_string acc s <> EmptyString.
Proof.
  induction s as [|c s IH]; intros acc H; cbn [Py.rev_string].
  - destruct H; [congruence | assumption].
  - apply IH. right. discriminate.
Qed.

Lemma flush_words (cur : string) (out : list string) :
  solid cur -> Forall word out -> Forall word (Py.flush cur out).
Proof.
  intros Hc Ho. unfold Py.flush. destruct cur as [|c cur]; [assumption|].
  constructor; [|assumption]. split.
  - apply rev_string_nonempty. left. discriminate.
  - now apply rev_string_solid.
Qed.

Lemma split_aux_words (s : string) : forall cur,
  solid cur -> Forall word (Py.split_aux cur s).
Proof.
  induction s as [|c s IH]; intros cur Hc; cbn [Py.split_aux].
  - apply flush_words; [assumption | constructor].
  - destruct (Py.isspace c) eqn:E.
    + apply flush_words; [assumption|]. now apply IH.
    + apply IH. unfold solid. cbn [all_chars]. now rewrite E.
Qed.

(** Reading a word moves it, reversed, in front of the current run. *)
Lemma split_aux_word (w : string) : forall cur rest,
  solid w ->
  Py.split_aux cur (w +:+ rest) = Py.split_aux (Py.rev_string cur w) rest.
Proof.
  unfold solid. induction w as [|c w IH]; intros cur rest Hw.
  - now rewrite append_nil.
  - cbn [all_chars] in Hw. apply andb_true_iff in Hw as [Hc Hw].
    apply negb_true_iff in Hc.
    rewrite append_cons. cbn [Py.split_aux Py.rev_string]. rewrite Hc.
    now apply IH.
Qed.

Lemma flush_word (w : string) (out : list string) :
  w <> EmptyString -> Py.flush (Py.rev_string "" w) out = w :: out.
Proof.
  intros Hw. unfold Py.flush.
  destruct (Py.rev_string "" w) eqn:E.
  - exfalso. eapply rev_string_nonempty; [|exact E]. now left.
  - now rewrite <- E, rev_string_involutive.
Qed.

Lemma split_join (ws : list string) :
  Forall word ws -> Py.split (Py.join " " ws) = ws.
Proof.
  unfold Py.split. induction 1 as [|w ws [Hne Hw] Hws IH]; [reflexivity|].
  destruct ws as [|w2 ws].
  - cbn [Py.join]. rewrite <- (append_nil_r w) at 1.
    rewrite split_aux_word by assumption. cbn [Py.split_aux].
    now apply flush_word.
  - change (Py.join " " (w :: w2 :: ws))
      with (w +:+ " " +:+ Py.join " " (w2 :: ws)).
    rewrite split_aux_word by assumption.
    rewrite append_cons, append_nil. cbn [Py.split_aux].
    change (Py.isspace " ") with true. cbv iota.
    rewrite IH. now apply flush_word.
Qed.

(** Normalising white space twice is normalising it once. *)
Lemma squeeze_idem (s : string) : squeeze (squeeze s) = squeeze s.
Proof.
  unfold squeeze. rewrite split_join; [reflexivity|].
  apply split_aux_words. reflexivity.
Qed.

End Squeeze.

(** X21. The titles and the summaries of the items of a listing page are
    normalised: their words are separated by single spaces, so that splitting
    and joining them again changes nothing. *)
Theorem parse_listing_titles_normalised (w : world) (page_url : string)
    (items : list item) (it : item) :
  parse_listing w page_url = Returned items -> it ∈ items ->
  squeeze (title it) = title it /\ squeeze (summary it) = summary it
  /\ Forall word (Py.split (title it)).
Proof.
  unfold parse_listing. destruct (page w page_url) as [l|d]; [|discriminate].
  intros [= <-] Hit. apply listing_items_inv in Hit as (a & _ & Ha).
  unfold listing_item in Ha.
  destruct (_ <? _)%nat; [discriminate|].
  destruct (negb (Py.startswith _ _)); [discriminate|].
  destruct (negb (String.eqb _ _)); [discriminate|].
  destruct (List.existsb _ bad); [discriminate|].
  injection Ha as <-. cbn [title summary].
  split; [apply squeeze_idem|]. split.
  - destruct (a_blurb a); [apply squeeze_idem | reflexivity].
  - apply split_aux_words. reflexivity.
Qed.

Lemma parse_listing_titles_normalised_witness :
  squeeze "Oscars shortlist: the nominees and the nominations"
  = "Oscars shortlist: the nominees and the nominations".
Proof.
  apply (parse_listing_titles_normalised Demo.world "https://example.com/news" _
           (Item "Oscars shortlist: the nominees and the nominations"
                 "https://example.com/2025/oscars-shortlist" "" "")
           ltac:(vm_compute; reflexivity) ltac:(left)).
Defined.
